(** * EEGPlatform-Open: session undo/redo, batch jobs and TFR jobs

  A shallow embedding of
    - backend/app/services/session_manager.py   (EEGSession)
    - backend/app/services/eeg_service.py       (the mutating operations)
    - backend/app/services/batch_processing_service.py
    - backend/app/services/tfr_jobs.py
  together with the properties of the system specification that concern
  them.

  Conventions.  A Python list is a Rocq list in the same order:
  [l.append(x)] is [l ++ [x]], [l.pop()] removes the last element,
  [l.pop(0)] removes the head.  [x.copy()] on a signal object yields a
  fresh object with the same contents; the stacks only ever hold such
  copies (or objects that left the session), so no stack entry is aliased
  with the live session and values model them exactly.  Readings of the
  clock ([datetime.now()]) are passed in as arguments; floating-point
  progress values are exact rationals. *)

From Stdlib Require Import Ascii String.
From Stdlib Require Import List Bool Arith Lia QArith Qabs Qminmax Sorted.
Import ListNotations.
Close Scope Q_scope.

(** ** Python list primitives *)

Section PyList.
Context {A : Type}.

(** [l.pop()] on a non-empty list: the last element and the remainder. *)
Fixpoint pop (l : list A) : option (A * list A) :=
  match l with
  | [] => None
  | x :: l' =>
      match pop l' with
      | None => Some (x, [])
      | Some (y, rest) => Some (y, x :: rest)
      end
  end.

(** [l[-1] if l else None] *)
Definition last_entry (l : list A) : option A := option_map fst (pop l).

(** [x.copy()]: same contents, fresh identity. *)
Definition copy (x : A) : A := x.

End PyList.

(** A call of an external collaborator returns a value or raises an
    exception with a message ([str(e)]). *)
Inductive Attempt (A : Type) : Type :=
| Done (a : A)
| Raises (msg : string).
Arguments Done {A}.
Arguments Raises {A}.

(** ** session_manager.py *)

Module SessionManager.

Definition MAX_UNDO_STACK : nat := 10.

Section WithSignals.
(** The signal objects and the parameter dictionaries are opaque. *)
Variables (Raw Epochs Params : Type).

(** A history record: [{"operation": .., "params": .., "timestamp": ..}]. *)
Record HistoryEntry : Type := mkHistory
  { operation : string; params : Params; timestamp : string }.

(** A stack entry.  Every push in the module builds a 3-tuple
    [(raw, history, epochs)]; [undo] and [redo] also accept a legacy
    2-tuple [(raw, history)].  The history slot holds [None] when [undo]
    or [redo] captured a session with an empty history. *)
Inductive StackItem : Type :=
| Item3 (r : Raw) (h : option HistoryEntry) (e : option Epochs)
| Item2 (r : Raw) (h : option HistoryEntry).

Definition item_raw (it : StackItem) : Raw :=
  match it with Item3 r _ _ => r | Item2 r _ => r end.
Definition item_history (it : StackItem) : option HistoryEntry :=
  match it with Item3 _ h _ => h | Item2 _ h => h end.
(** What the session's [epochs] becomes when the entry is restored. *)
Definition item_epochs (it : StackItem) : option Epochs :=
  match it with Item3 _ _ e => e | Item2 _ _ => None end.

(** [class EEGSession] ([created_at] and [last_accessed] are only used by
    the registry's expiry sweep and are left out). *)
Record EEGSession : Type := mkSession
  { session_id : string;
    file_path : string;
    raw : option Raw;
    epochs : option Epochs;
    processing_history : list HistoryEntry;
    _undo_stack : list StackItem;
    _redo_stack : list StackItem }.

(** [EEGSession.__init__] *)
Definition new_session (sid path : string) : EEGSession :=
  {| session_id := sid; file_path := path; raw := None; epochs := None;
     processing_history := []; _undo_stack := []; _redo_stack := [] |}.

Definition set_raw (v : option Raw) (s : EEGSession) : EEGSession :=
  {| session_id := session_id s; file_path := file_path s; raw := v;
     epochs := epochs s; processing_history := processing_history s;
     _undo_stack := _undo_stack s; _redo_stack := _redo_stack s |}.
Definition set_epochs (v : option Epochs) (s : EEGSession) : EEGSession :=
  {| session_id := session_id s; file_path := file_path s; raw := raw s;
     epochs := v; processing_history := processing_history s;
     _undo_stack := _undo_stack s; _redo_stack := _redo_stack s |}.
Definition set_history (v : list HistoryEntry) (s : EEGSession) : EEGSession :=
  {| session_id := session_id s; file_path := file_path s; raw := raw s;
     epochs := epochs s; processing_history := v;
     _undo_stack := _undo_stack s; _redo_stack := _redo_stack s |}.
Definition set_undo_stack (v : list StackItem) (s : EEGSession) : EEGSession :=
  {| session_id := session_id s; file_path := file_path s; raw := raw s;
     epochs := epochs s; processing_history := processing_history s;
     _undo_stack := v; _redo_stack := _redo_stack s |}.
Definition set_redo_stack (v : list StackItem) (s : EEGSession) : EEGSession :=
  {| session_id := session_id s; file_path := file_path s; raw := raw s;
     epochs := epochs s; processing_history := processing_history s;
     _undo_stack := _undo_stack s; _redo_stack := v |}.

(** The snapshot [save_state], [undo] and [redo] take of the live session:
    [(self.raw.copy(), h, self.epochs.copy() if self.epochs is not None
    else None)]. *)
Definition capture (r : Raw) (h : option HistoryEntry) (s : EEGSession) : StackItem :=
  Item3 (copy r) h (option_map copy (epochs s)).

(** [EEGSession.save_state] *)
Definition save_state (op : string) (ps : Params) (now : string)
    (s : EEGSession) : EEGSession :=
  match raw s with
  | Some r =>
      let pushed := _undo_stack s ++ [capture r (Some (mkHistory op ps now)) s] in
      let bounded :=
        if MAX_UNDO_STACK <? length pushed then tl pushed else pushed in
      set_redo_stack [] (set_undo_stack bounded s)
  | None => s
  end.

(** [EEGSession.undo] *)
Definition undo (s : EEGSession) : bool * EEGSession :=
  match pop (_undo_stack s) with
  | None => (false, s)
  | Some (stack_item, rest) =>
      let s1 :=
        match raw s with
        | Some r =>
            let current_history := last_entry (processing_history s) in
            set_redo_stack (_redo_stack s ++ [capture r current_history s]) s
        | None => s
        end in
      let s2 := set_undo_stack rest s1 in
      let s3 := set_epochs (item_epochs stack_item) s2 in
      let s4 := set_raw (Some (item_raw stack_item)) s3 in
      (true, set_history (removelast (processing_history s4)) s4)
  end.

(** [EEGSession.redo].  A history record always has its three keys, so
    [if redo_history:] tests for [None] only. *)
Definition redo (s : EEGSession) : bool * EEGSession :=
  match pop (_redo_stack s) with
  | None => (false, s)
  | Some (redo_item, rest) =>
      let s1 :=
        match raw s with
        | Some r =>
            let current_history := last_entry (processing_history s) in
            set_undo_stack (_undo_stack s ++ [capture r current_history s]) s
        | None => s
        end in
      let s2 := set_redo_stack rest s1 in
      let s3 := set_epochs (item_epochs redo_item) s2 in
      let s4 := set_raw (Some (item_raw redo_item)) s3 in
      match item_history redo_item with
      | Some redo_history =>
          (true, set_history (processing_history s4 ++ [redo_history]) s4)
      | None => (true, s4)
      end
  end.

(** [EEGSession.can_undo], [EEGSession.can_redo] *)
Definition can_undo (s : EEGSession) : bool := 0 <? length (_undo_stack s).
Definition can_redo (s : EEGSession) : bool := 0 <? length (_redo_stack s).

(** [EEGSession.add_history] *)
Definition add_history (op : string) (ps : Params) (now : string)
    (s : EEGSession) : EEGSession :=
  set_history (processing_history s ++ [mkHistory op ps now]) s.

End WithSignals.

Arguments mkHistory {Params}.
Arguments operation {Params}.
Arguments params {Params}.
Arguments timestamp {Params}.
Arguments Item3 {Raw Epochs Params}.
Arguments Item2 {Raw Epochs Params}.
Arguments item_raw {Raw Epochs Params}.
Arguments item_history {Raw Epochs Params}.
Arguments item_epochs {Raw Epochs Params}.
Arguments mkSession {Raw Epochs Params}.
Arguments session_id {Raw Epochs Params}.
Arguments file_path {Raw Epochs Params}.
Arguments raw {Raw Epochs Params}.
Arguments epochs {Raw Epochs Params}.
Arguments processing_history {Raw Epochs Params}.
Arguments _undo_stack {Raw Epochs Params}.
Arguments _redo_stack {Raw Epochs Params}.
Arguments new_session {Raw Epochs Params}.
Arguments set_raw {Raw Epochs Params}.
Arguments set_epochs {Raw Epochs Params}.
Arguments set_history {Raw Epochs Params}.
Arguments set_undo_stack {Raw Epochs Params}.
Arguments set_redo_stack {Raw Epochs Params}.
Arguments capture {Raw Epochs Params}.
Arguments save_state {Raw Epochs Params}.
Arguments undo {Raw Epochs Params}.
Arguments redo {Raw Epochs Params}.
Arguments can_undo {Raw Epochs Params}.
Arguments can_redo {Raw Epochs Params}.
Arguments add_history {Raw Epochs Params}.

End SessionManager.

(** ** eeg_service.py: operations on a session *)

Module EEGService.
Import SessionManager.

Section WithSignals.
Variables (Raw Epochs Params : Type).

Local Abbreviation Session := (EEGSession Raw Epochs Params).

(** The result of a call on a session object: it returned, or it raised
    with the given message; either way the session object is left in the
    state given. *)
Inductive Outcome : Type :=
| Returned (s : Session)
| Raised (msg : string) (s : Session).

Definition session_after (o : Outcome) : Session :=
  match o with Returned s => s | Raised _ s => s end.

(** The message of the [ValueError] raised on a session without data. *)
Definition NO_DATA : string := "会话中没有加载的数据".

(** The tail of [load_raw]: [session.raw = raw] and
    [session.add_history("load", {"file_path": file_path})]. *)
Definition attach_raw (r : Raw) (ps : Params) (now : string) (s : Session) : Session :=
  add_history "load" ps now (set_raw (Some r) s).

(** One mutating operation.  [apply_filter], [apply_resample],
    [apply_rereference], [apply_ica], [create_epochs] and [crop_data] all
    have the shape

      raw = session.raw
      if raw is None: raise ValueError(...)
      session.save_state(name, params)
      ... the signal processing, in place on raw (and, for create_epochs,
          session.epochs = epochs) ...
      session.add_history(name, params')

    The signal processing itself is an external collaborator, given here
    by its effect [transform] on the pair (raw, epochs); the two clock
    readings are [save_time] and [hist_time]. *)
Record Operation : Type := mkOperation
  { op_name : string;
    save_params : Params;
    save_time : string;
    transform : Raw -> option Epochs -> Raw * option Epochs;
    hist_params : Params;
    hist_time : string }.

Definition apply_operation (o : Operation) (s : Session) : Outcome :=
  match raw s with
  | None => Raised NO_DATA s
  | Some r =>
      let s1 := save_state (op_name o) (save_params o) (save_time o) s in
      let processed := transform o r (epochs s1) in
      let s2 := set_epochs (snd processed) (set_raw (Some (fst processed)) s1) in
      Returned (add_history (op_name o) (hist_params o) (hist_time o) s2)
  end.

(** A sequence of operations, stopping at the first one that raises. *)
Fixpoint run_ops (ops : list Operation) (s : Session) : Outcome :=
  match ops with
  | [] => Returned s
  | o :: rest =>
      match apply_operation o s with
      | Returned s' => run_ops rest s'
      | Raised msg s' => Raised msg s'
      end
  end.

(** The calls a session object receives during its life. *)
Inductive Call : Type :=
| CallLoad (r : Raw) (ps : Params) (now : string)
| CallSaveState (op : string) (ps : Params) (now : string)
| CallProcess (f : Raw -> option Epochs -> Raw * option Epochs)
| CallAddHistory (op : string) (ps : Params) (now : string)
| CallUndo
| CallRedo.

Definition perform (c : Call) (s : Session) : Session :=
  match c with
  | CallLoad r ps now => attach_raw r ps now s
  | CallSaveState op ps now => save_state op ps now s
  | CallProcess f =>
      match raw s with
      | Some r =>
          let processed := f r (epochs s) in
          set_epochs (snd processed) (set_raw (Some (fst processed)) s)
      | None => s
      end
  | CallAddHistory op ps now => add_history op ps now s
  | CallUndo => snd (undo s)
  | CallRedo => snd (redo s)
  end.

Definition run_calls (calls : list Call) (s : Session) : Session :=
  fold_left (fun acc c => perform c acc) calls s.

(** [n] calls of [f] in a row. *)
Fixpoint times {X : Type} (n : nat) (f : X -> X) (x : X) : X :=
  match n with
  | 0 => x
  | S k => times k f (f x)
  end.

Definition undo_times (n : nat) (s : Session) : Session :=
  times n (fun acc => snd (undo acc)) s.
Definition redo_times (n : nat) (s : Session) : Session :=
  times n (fun acc => snd (redo acc)) s.

(** What a client observes of the data: raw, epochs and history. *)
Definition view (s : Session) : option Raw * option Epochs * list (HistoryEntry Params) :=
  (raw s, epochs s, processing_history s).

End WithSignals.

Arguments Returned {Raw Epochs Params}.
Arguments Raised {Raw Epochs Params}.
Arguments session_after {Raw Epochs Params}.
Arguments attach_raw {Raw Epochs Params}.
Arguments mkOperation {Raw Epochs Params}.
Arguments op_name {Raw Epochs Params}.
Arguments save_params {Raw Epochs Params}.
Arguments save_time {Raw Epochs Params}.
Arguments transform {Raw Epochs Params}.
Arguments hist_params {Raw Epochs Params}.
Arguments hist_time {Raw Epochs Params}.
Arguments apply_operation {Raw Epochs Params}.
Arguments run_ops {Raw Epochs Params}.
Arguments CallLoad {Raw Epochs Params}.
Arguments CallSaveState {Raw Epochs Params}.
Arguments CallProcess {Raw Epochs Params}.
Arguments CallAddHistory {Raw Epochs Params}.
Arguments CallUndo {Raw Epochs Params}.
Arguments CallRedo {Raw Epochs Params}.
Arguments perform {Raw Epochs Params}.
Arguments run_calls {Raw Epochs Params}.
Arguments undo_times {Raw Epochs Params}.
Arguments redo_times {Raw Epochs Params}.
Arguments view {Raw Epochs Params}.

End EEGService.

(** ** batch_processing_service.py *)

Module BatchProcessing.

(** [BatchJobStatus.status] and [BatchFileResult.status] (schemas.py). *)
Inductive JobState : Type := idle | running | completed | failed | cancelled.
Inductive FileState : Type := pending | success | failed_file.

(** [BatchFileResult].  Elapsed seconds and progress are floats in the
    source and exact rationals here; only their order is used. *)
Record BatchFileResult : Type := mkFileResult
  { file_path : string;
    file_name : string;
    file_status : FileState;
    output_path : option string;
    error : option string;
    processing_time : option Q }.

(** [BatchJobStatus] without [created_at] and [updated_at], which nothing
    below reads. *)
Record BatchJobStatus : Type := mkJobStatus
  { job_id : string;
    status : JobState;
    total_files : nat;
    completed_files : nat;
    failed_files : nat;
    current_file : option string;
    current_step : option string;
    progress : Q;
    error_message : option string;
    results : list BatchFileResult }.

(** [PreprocessingStepConfig]; its [params] go to the collaborator. *)
Record PreprocessingStepConfig : Type := mkStep
  { step_id : string; step_type : string; enabled : bool }.

(** [BatchProcessingRequest] *)
Record BatchProcessingRequest : Type := mkRequest
  { file_paths : list string;
    preprocessing_steps : list PreprocessingStepConfig;
    output_dir : string;
    output_format : string;
    export_epochs : bool }.

Definition with_status (v : JobState) (j : BatchJobStatus) : BatchJobStatus :=
  mkJobStatus (job_id j) v (total_files j) (completed_files j) (failed_files j)
    (current_file j) (current_step j) (progress j) (error_message j) (results j).
Definition with_completed_files (v : nat) (j : BatchJobStatus) : BatchJobStatus :=
  mkJobStatus (job_id j) (status j) (total_files j) v (failed_files j)
    (current_file j) (current_step j) (progress j) (error_message j) (results j).
Definition with_failed_files (v : nat) (j : BatchJobStatus) : BatchJobStatus :=
  mkJobStatus (job_id j) (status j) (total_files j) (completed_files j) v
    (current_file j) (current_step j) (progress j) (error_message j) (results j).
Definition with_current_file (v : option string) (j : BatchJobStatus) : BatchJobStatus :=
  mkJobStatus (job_id j) (status j) (total_files j) (completed_files j) (failed_files j)
    v (current_step j) (progress j) (error_message j) (results j).
Definition with_current_step (v : option string) (j : BatchJobStatus) : BatchJobStatus :=
  mkJobStatus (job_id j) (status j) (total_files j) (completed_files j) (failed_files j)
    (current_file j) v (progress j) (error_message j) (results j).
Definition with_progress (v : Q) (j : BatchJobStatus) : BatchJobStatus :=
  mkJobStatus (job_id j) (status j) (total_files j) (completed_files j) (failed_files j)
    (current_file j) (current_step j) v (error_message j) (results j).
Definition with_results (v : list BatchFileResult) (j : BatchJobStatus) : BatchJobStatus :=
  mkJobStatus (job_id j) (status j) (total_files j) (completed_files j) (failed_files j)
    (current_file j) (current_step j) (progress j) (error_message j) v.

(** [l[i] = x] for [i] within the list.  (Out of range Python raises
    [IndexError]; [results] has one entry per input file, so the index of
    the file loop is always within it.) *)
Fixpoint assign {A : Type} (i : nat) (x : A) (l : list A) : list A :=
  match l, i with
  | [], _ => []
  | _ :: rest, 0 => x :: rest
  | y :: rest, S k => y :: assign k x rest
  end.

(** *** The collaborators

    Loading, the preprocessing steps and the export are external calls.
    For one input file they are given by what they do
    when called: [load_raw], whether [session_manager.get_session] then
    finds the session, [execute_step k] for the step at position [k] of
    [preprocessing_steps], [export_file], and the time the file took. *)
Record FileWorld : Type := mkFileWorld
  { load_raw : Attempt unit;
    session_found : bool;
    execute_step : nat -> Attempt unit;
    export_file : Attempt string;
    elapsed : Q }.

(** The text of [Exception("会话创建失败")]. *)
Definition SESSION_FAILED : string := "会话创建失败".

(** *** A run of the background task

    [job] is the shared [job.status] object, [delivered] the status
    snapshots handed to the progress callbacks so far, oldest first, and
    [reads] counts the reads of [job.cancel_event] so far. *)
Record Run : Type := mkRun
  { job : BatchJobStatus;
    delivered : list BatchJobStatus;
    reads : nat }.

Definition on_job (f : BatchJobStatus -> BatchJobStatus) (r : Run) : Run :=
  mkRun (f (job r)) (delivered r) (reads r).

(** [_notify_progress]: every callback in [job.progress_callbacks] is
    called with [job.status], and what a callback raises is swallowed; so
    each callback subscribed throughout receives the sequence [delivered]
    (the callback of the streaming endpoint serializes the status at once,
    [_status_to_dict], so it keeps the values of the moment of the call). *)
Definition _notify_progress (r : Run) : Run :=
  mkRun (job r) (delivered r ++ [job r]) (reads r).

Inductive Flow : Type := Continue | Break.

Inductive StepsResult : Type :=
| StepsEnded (r : Run)
| StepRaised (msg : string) (r : Run).

Section Task.
(** [Path(p).name] *)
Variable path_name : string -> string.
Variable request : BatchProcessingRequest.
(** The collaborators' behaviour on the file at each index. *)
Variable world : nat -> FileWorld.
(** [cancel_event] is set by [cancel_job] only and never cleared:
    [Some k] when the read number [k] (from 0) is the first to see it set,
    [None] when no read sees it set. *)
Variable cancel_at : option nat.

(** [job.cancel_event.is_set()] *)
Definition is_set (r : Run) : bool * Run :=
  (match cancel_at with Some k => k <=? reads r | None => false end,
   mkRun (job r) (delivered r) (S (reads r))).

(** The loop [for step in job.request.preprocessing_steps], from the step
    at position [k]. *)
Fixpoint run_steps (w : FileWorld) (k : nat) (steps : list PreprocessingStepConfig)
    (r : Run) : StepsResult :=
  match steps with
  | [] => StepsEnded r
  | step :: rest =>
      if negb (enabled step) then run_steps w (S k) rest r
      else
        let (seen, r1) := is_set r in
        if seen then StepsEnded r1
        else
          let r2 := _notify_progress (on_job (with_current_step (Some (step_type step))) r1) in
          match execute_step w k with
          | Raises msg => StepRaised msg r2
          | Done _ => run_steps w (S k) rest r2
          end
  end.

(** The [except Exception as e] branch of the per-file [try]. *)
Definition record_failure (i : nat) (path name msg : string) (j : BatchJobStatus)
  : BatchJobStatus :=
  let j1 := with_results
              (assign i (mkFileResult path name failed_file None (Some msg) None)
                 (results j)) j in
  with_failed_files (failed_files j1 + 1) j1.

(** The end of the per-file [try] body. *)
Definition record_success (i : nat) (path name out : string) (secs : Q)
    (j : BatchJobStatus) : BatchJobStatus :=
  let j1 := with_results
              (assign i (mkFileResult path name success (Some out) None (Some secs))
                 (results j)) j in
  with_completed_files (completed_files j1 + 1) j1.

(** [((i + 1) / job.status.total_files) * 100] *)
Definition progress_after (i : nat) (j : BatchJobStatus) : Q :=
  ((inject_Z (Z.of_nat (i + 1)) / inject_Z (Z.of_nat (total_files j))) * 100)%Q.

(** The three statements after the per-file [try]. *)
Definition file_done (i : nat) (r : Run) : Flow * Run :=
  (Continue, _notify_progress (on_job (fun j => with_progress (progress_after i j) j) r)).

(** One iteration of [for i, file_path in enumerate(job.request.file_paths)]. *)
Definition process_file (i : nat) (path : string) (r : Run) : Flow * Run :=
  let (seen, r1) := is_set r in
  if seen then (Break, on_job (with_status cancelled) r1)
  else
    let name := path_name path in
    let r2 := _notify_progress
                (on_job (fun j => with_current_step (Some "loading"%string)
                                    (with_current_file (Some name) j)) r1) in
    let w := world i in
    match load_raw w with
    | Raises msg => file_done i (on_job (record_failure i path name msg) r2)
    | Done _ =>
        if negb (session_found w)
        then file_done i (on_job (record_failure i path name SESSION_FAILED) r2)
        else
          match run_steps w 0 (preprocessing_steps request) r2 with
          | StepRaised msg r3 => file_done i (on_job (record_failure i path name msg) r3)
          | StepsEnded r3 =>
              let (seen', r4) := is_set r3 in
              if seen' then (Break, r4)
              else
                let r5 := _notify_progress
                            (on_job (with_current_step (Some "exporting"%string)) r4) in
                match export_file w with
                | Raises msg => file_done i (on_job (record_failure i path name msg) r5)
                | Done out =>
                    file_done i (on_job (record_success i path name out (elapsed w)) r5)
                end
          end
    end.

(** The file loop from index [i] on. *)
Fixpoint process_files (i : nat) (paths : list string) (r : Run) : Run :=
  match paths with
  | [] => r
  | path :: rest =>
      match process_file i path r with
      | (Break, r') => r'
      | (Continue, r') => process_files (S i) rest r'
      end
  end.

(** [_process_job].  Nothing outside the per-file [try] raises, so the
    outer handler (status "failed") is never entered and is left out. *)
Definition _process_job (r : Run) : Run :=
  let r1 := _notify_progress (on_job (with_status running) r) in
  let r2 := process_files 0 (file_paths request) r1 in
  match status (job r2) with
  | running =>
      _notify_progress
        (on_job (fun j => with_progress 100%Q
                            (with_current_step None
                               (with_current_file None (with_status completed j)))) r2)
  | _ => r2
  end.

(** [create_job]: the status of a new job, with nothing delivered yet. *)
Definition create_job (jid : string) : Run :=
  mkRun
    (mkJobStatus jid idle (length (file_paths request)) 0 0 None None 0%Q None
       (map (fun path => mkFileResult path (path_name path) pending None None None)
          (file_paths request)))
    [] 0.

End Task.

(** [cancel_job] accepts jobs that are running or idle. *)
Definition cancellable (s : JobState) : bool :=
  match s with running | idle => true | _ => false end.

(** The end of [cancel_job], after the task has been awaited. *)
Definition cancel_finish (r : Run) : Run :=
  _notify_progress (on_job (with_status cancelled) r).

(** The state of [job.task] when [cancel_job] is called: no task yet, a
    task that has not begun its body (cancelling it keeps the body from
    ever running), or a task inside [_process_job] whose read number [k] of
    the event is the first one after [cancel_job] set it. *)
Inductive Task : Type := NoTask | Unstarted | InFlight (k : nat).

(** [cancel_job] on a job made by [create_job]: the guard, setting the
    event, awaiting the task, then status "cancelled" and a last
    notification.  While the body is in flight the status is "running". *)
Definition cancel_job (path_name : string -> string) (request : BatchProcessingRequest)
    (world : nat -> FileWorld) (jid : string) (task : Task) : bool * Run :=
  let r0 := create_job path_name request jid in
  match task with
  | NoTask | Unstarted =>
      if cancellable (status (job r0)) then (true, cancel_finish r0) else (false, r0)
  | InFlight k =>
      (true, cancel_finish (_process_job path_name request world (Some k) r0))
  end.

End BatchProcessing.

(** ** tfr_jobs.py *)

Module TFRJobs.

(** [TFRStatus = Literal["pending", "running", "completed", "error"]] *)
Inductive TFRStatus : Type := Pending | Running | Completed | Error.

(** The text cancellation leaves in [job.error]. *)
Definition CANCELLED_MSG : string := "任务已被用户取消".

(** What [range(0, 0, 0)] raises when there are no epochs. *)
Definition RANGE_MSG : string := "range() arg 3 must not be zero".

Section WithResult.
(** The result dictionary is opaque. *)
Variable Result : Type.

(** [TFRJob] without its two timestamps. *)
Record TFRJob : Type := mkJob
  { job_id : string;
    status : TFRStatus;
    progress : Q;
    error : option string;
    result : option Result;
    cancelled : bool }.

(** The job [create_job] registers. *)
Definition create_job (jid : string) : TFRJob :=
  mkJob jid Pending 0%Q None None false.

(** [cancel_job], for a job that is registered. *)
Definition cancel_job (j : TFRJob) : bool * TFRJob :=
  match status j with
  | Pending | Running =>
      (true, mkJob (job_id j) Error 1%Q (Some CANCELLED_MSG) (result j) true)
  | _ => (false, j)
  end.

(** The local function [_update] of [run_morlet_job]: each argument that
    is not [None] overwrites its field. *)
Definition _update (st : option TFRStatus) (pr : option Q) (er : option string)
    (rs : option Result) (j : TFRJob) : TFRJob :=
  mkJob (job_id j)
    (match st with Some v => v | None => status j end)
    (match pr with Some v => v | None => progress j end)
    (match er with Some v => Some v | None => error j end)
    (match rs with Some v => Some v | None => result j end)
    (cancelled j).

(** *** The collaborators of one run

    [prepare] stands for the validation and selection at the head of the
    [try] block (epochs present, channels chosen and found, [fmax > fmin],
    a positive epoch length): it raises, or returns [len(epochs_sel)].
    [tfr_batch i] is the transform of the batch starting at epoch [i] with
    its baseline correction, [average] the averaging after the loop,
    [render_roi] and [render_channel c] the image rendering. *)
Record World : Type := mkWorld
  { prepare : Attempt nat;
    tfr_batch : nat -> Attempt unit;
    average : Attempt unit;
    render_image : bool;
    render_roi : Attempt unit;
    channel_names_out : list string;
    render_channel : nat -> Attempt unit;
    data_result : Result;
    image_result : Result }.

(** *** The worker and the request that cancels

    [run_morlet_job] is a plain function handed to [BackgroundTasks], so
    it runs on a worker thread while [cancel_job] runs on the request
    side; the two share the job object.  [clock] counts the worker's
    accesses to the job.  [cancel_job] is called at most once, just
    before the access whose number is [cancel_at]; [cancel_answer] keeps
    what it returned. *)
Record Worker : Type := mkWorker
  { job : TFRJob;
    clock : nat;
    cancel_answer : option bool }.

Section Run.
Variable world : World.
Variable cancel_at : option nat.

Definition tick (w : Worker) : Worker :=
  match cancel_at with
  | Some k =>
      if k =? clock w
      then mkWorker (snd (cancel_job (job w))) (S (clock w))
             (Some (fst (cancel_job (job w))))
      else mkWorker (job w) (S (clock w)) (cancel_answer w)
  | None => mkWorker (job w) (S (clock w)) (cancel_answer w)
  end.

(** A call [_update(...)] by the worker. *)
Definition update (st : option TFRStatus) (pr : option Q) (er : option string)
    (rs : option Result) (w : Worker) : Worker :=
  let w' := tick w in
  mkWorker (_update st pr er rs (job w')) (clock w') (cancel_answer w').

(** A read of [job.cancelled] by the worker. *)
Definition read_cancelled (w : Worker) : bool * Worker :=
  let w' := tick w in (cancelled (job w'), w').

(** [except Exception as e: _update(status="error", progress=1.0, error=str(e))] *)
Definition fail (msg : string) (w : Worker) : Worker :=
  update (Some Error) (Some 1%Q) (Some msg) None w.

(** [_update(status="error", progress=1.0, error="任务已被用户取消"); return] *)
Definition stop_cancelled (w : Worker) : Worker :=
  update (Some Error) (Some 1%Q) (Some CANCELLED_MSG) None w.

(** [range(start, stop, step)] for a positive [step]. *)
Fixpoint range_from (fuel start stop step : nat) : list nat :=
  match fuel with
  | 0 => []
  | S fuel' =>
      if start <? stop then start :: range_from fuel' (start + step) stop step else []
  end.

Definition range (stop step : nat) : list nat := range_from stop 0 stop step.

Inductive LoopResult : Type :=
| LoopDone (w : Worker)
| LoopReturned (w : Worker)
| LoopRaised (msg : string) (w : Worker).

(** [0.15 + 0.6 * (total_epochs / max(1, n_epochs))] *)
Definition batch_progress (total_epochs n_epochs : nat) : Q :=
  ((15 # 100) + (6 # 10) * (inject_Z (Z.of_nat total_epochs)
                            / inject_Z (Z.of_nat (Nat.max 1 n_epochs))))%Q.

(** [for start_idx in range(0, n_epochs, batch_size)] *)
Fixpoint batches (starts : list nat) (n_epochs batch_size total_epochs : nat)
    (w : Worker) : LoopResult :=
  match starts with
  | [] => LoopDone w
  | start_idx :: rest =>
      let (seen, w1) := read_cancelled w in
      if seen then LoopReturned (stop_cancelled w1)
      else
        match tfr_batch world start_idx with
        | Raises msg => LoopRaised msg w1
        | Done _ =>
            let end_idx := Nat.min (start_idx + batch_size) n_epochs in
            let total' := total_epochs + (end_idx - start_idx) in
            batches rest n_epochs batch_size total'
              (update None (Some (batch_progress total' n_epochs)) None None w1)
        end
  end.

(** [0.85 + 0.13 * ((ci + 1) / max(1, len(channel_names_out)))] *)
Definition channel_progress (ci n_channels : nat) : Q :=
  ((85 # 100) + (13 # 100) * (inject_Z (Z.of_nat (ci + 1))
                              / inject_Z (Z.of_nat (Nat.max 1 n_channels))))%Q.

(** [for ci, ch_name in enumerate(channel_names_out)] *)
Fixpoint channels (ci : nat) (names : list string) (n_channels : nat) (w : Worker)
  : LoopResult :=
  match names with
  | [] => LoopDone w
  | _ :: rest =>
      let (seen, w1) := read_cancelled w in
      if seen then LoopReturned (stop_cancelled w1)
      else
        match render_channel world ci with
        | Raises msg => LoopRaised msg w1
        | Done _ =>
            channels (S ci) rest n_channels
              (update None (Some (channel_progress ci n_channels)) None None w1)
        end
  end.

(** [run_morlet_job], for a job that is registered. *)
Definition run_morlet_job (w0 : Worker) : Worker :=
  let (seen, w1) := read_cancelled w0 in
  if seen then w1
  else
    let w2 := update (Some Running) (Some (5 # 100)%Q) None None w1 in
    match prepare world with
    | Raises msg => fail msg w2
    | Done n_epochs =>
        let w3 := update None (Some (15 # 100)%Q) None None w2 in
        let batch_size := if 10 <=? n_epochs then 5 else n_epochs in
        if batch_size =? 0 then fail RANGE_MSG w3
        else
          match batches (range n_epochs batch_size) n_epochs batch_size 0 w3 with
          | LoopReturned w4 => w4
          | LoopRaised msg w4 => fail msg w4
          | LoopDone w4 =>
              let w5 := update None (Some (8 # 10)%Q) None None w4 in
              match average world with
              | Raises msg => fail msg w5
              | Done _ =>
                  if render_image world then
                    let w6 := update None (Some (85 # 100)%Q) None None w5 in
                    match render_roi world with
                    | Raises msg => fail msg w6
                    | Done _ =>
                        match channels 0 (channel_names_out world)
                                (length (channel_names_out world)) w6 with
                        | LoopReturned w7 => w7
                        | LoopRaised msg w7 => fail msg w7
                        | LoopDone w7 =>
                            update (Some Completed) (Some 1%Q) None
                              (Some (image_result world)) w7
                        end
                    end
                  else
                    update (Some Completed) (Some 1%Q) None
                      (Some (data_result world)) w5
              end
          end
    end.

(** A worker starting on the job made by [create_job]. *)
Definition start (jid : string) : Worker := mkWorker (create_job jid) 0 None.

End Run.
End WithResult.

Arguments mkJob {Result}.
Arguments job_id {Result}.
Arguments status {Result}.
Arguments progress {Result}.
Arguments error {Result}.
Arguments result {Result}.
Arguments cancelled {Result}.
Arguments create_job {Result}.
Arguments cancel_job {Result}.
Arguments _update {Result}.
Arguments mkWorld {Result}.
Arguments mkWorker {Result}.
Arguments job {Result}.
Arguments clock {Result}.
Arguments cancel_answer {Result}.
Arguments run_morlet_job {Result}.
Arguments start {Result}.
Arguments prepare {Result}.
Arguments tfr_batch {Result}.
Arguments average {Result}.
Arguments render_image {Result}.
Arguments render_roi {Result}.
Arguments channel_names_out {Result}.
Arguments render_channel {Result}.
Arguments data_result {Result}.
Arguments image_result {Result}.
Arguments tick {Result}.
Arguments update {Result}.
Arguments read_cancelled {Result}.
Arguments fail {Result}.
Arguments stop_cancelled {Result}.
Arguments LoopDone {Result}.
Arguments LoopReturned {Result}.
Arguments LoopRaised {Result}.
Arguments batches {Result}.
Arguments channels {Result}.

End TFRJobs.

(** ** eeg_service.py: bad channels and re-referencing *)

Module EEGServiceOps.
Import SessionManager EEGService.

(** What these operations read of a raw object: the channel names, the
    list [raw.info['bads']] and the samples. *)
Record Recording (Signal : Type) : Type := mkRecording
  { ch_names : list string;
    bads : list string;
    signal : Signal }.
Arguments mkRecording {Signal}.
Arguments ch_names {Signal}.
Arguments bads {Signal}.
Arguments signal {Signal}.

(** [x in l] on a list of strings. *)
Definition contains (l : list string) (x : string) : bool :=
  existsb (String.eqb x) l.

(** [l.remove(x)] for an [x] that is in the list: the first occurrence
    goes. *)
Fixpoint remove_first (x : string) (l : list string) : list string :=
  match l with
  | [] => []
  | y :: rest => if String.eqb x y then rest else y :: remove_first x rest
  end.

(** The first name of [candidates] that is a channel, as the two search
    loops of [apply_rereference] find it. *)
Fixpoint first_present (candidates names : list string) : option string :=
  match candidates with
  | [] => None
  | c :: rest => if contains names c then Some c else first_present rest names
  end.

(** The argument [ref_channels] of [raw.set_eeg_reference]. *)
Inductive RefChannels : Type :=
| RefAverage
| RefList (names : list string).

Definition A1_NAMES : list string := ["A1"; "M1"; "TP9"]%string.
Definition A2_NAMES : list string := ["A2"; "M2"; "TP10"]%string.

(** The text of the [ValueError] when the electrodes are missing. *)
Definition NO_REFERENCE : string := "未找到 A1/A2 或 TP9/TP10 电极".

Section WithSignals.
Variables (Signal Epochs Params : Type).
(** [raw.set_eeg_reference(ref_channels=..., projection=False)], in place. *)
Variable set_eeg_reference : RefChannels -> Recording Signal -> Recording Signal.
(** The parameter dictionaries the two operations record. *)
Variable bad_channel_params : string -> bool -> Params.
Variable rereference_params : string -> option (list string) -> Params.

Local Abbreviation Session := (EEGSession (Recording Signal) Epochs Params).

Definition with_bads (v : list string) (r : Recording Signal) : Recording Signal :=
  mkRecording (ch_names r) v (signal r).

(** [set_bad_channel] *)
Definition set_bad_channel (channel_name : string) (is_bad : bool) (now : string)
    (s : Session) : Outcome (Recording Signal) Epochs Params :=
  match raw s with
  | None => Raised NO_DATA s
  | Some r =>
      let r' :=
        if is_bad then
          if contains (bads r) channel_name then r
          else with_bads (bads r ++ [channel_name]) r
        else
          if contains (bads r) channel_name
          then with_bads (remove_first channel_name (bads r)) r
          else r in
      Returned
        (add_history "set_bad_channel" (bad_channel_params channel_name is_bad) now
           (set_raw (Some r') s))
  end.

(** [apply_rereference]; [custom_ref] counts when it is a non-empty list. *)
Definition apply_rereference (method : string) (custom_ref : option (list string))
    (save_time hist_time : string) (s : Session)
  : Outcome (Recording Signal) Epochs Params :=
  match raw s with
  | None => Raised NO_DATA s
  | Some r =>
      let ps := rereference_params method custom_ref in
      let s1 := save_state "rereference" ps save_time s in
      let done (r' : Recording Signal) :=
        Returned (add_history "rereference" ps hist_time (set_raw (Some r') s1)) in
      if String.eqb method "average" then done (set_eeg_reference RefAverage r)
      else if String.eqb method "a1a2" then
        match first_present A1_NAMES (ch_names r), first_present A2_NAMES (ch_names r) with
        | Some a1, Some a2 => done (set_eeg_reference (RefList [a1; a2]) r)
        | _, _ => Raised NO_REFERENCE s1
        end
      else
        match custom_ref with
        | Some (c :: cs) =>
            if String.eqb method "custom"
            then done (set_eeg_reference (RefList (c :: cs)) r)
            else done r
        | _ => done r
        end
  end.

End WithSignals.

Arguments with_bads {Signal}.
Arguments set_bad_channel {Signal Epochs Params}.
Arguments apply_rereference {Signal Epochs Params}.

End EEGServiceOps.

(** ** session_manager.py: the registry *)

Module SessionRegistry.
Import SessionManager.

(** [SESSION_TIMEOUT = timedelta(hours=2)], in seconds; points in time are
    seconds too. *)
Definition SESSION_TIMEOUT : Z := 7200.

Section WithSignals.
Variables (Raw Epochs Params : Type).

(** A session object with the two timestamps that [EEGSession] above
    leaves out. *)
Record Slot : Type := mkSlot
  { session : EEGSession Raw Epochs Params;
    created_at : Z;
    last_accessed : Z }.

(** [SessionManager._sessions]: a dictionary, held as its items in
    insertion order; its keys are distinct. *)
Definition Registry : Type := list (string * Slot).

(** [d.get(key)] *)
Fixpoint lookup (key : string) (d : Registry) : option Slot :=
  match d with
  | [] => None
  | (k, v) :: rest => if String.eqb key k then Some v else lookup key rest
  end.

(** [d[key] = v]: an existing key keeps its place, a new one goes last. *)
Fixpoint assign_key (key : string) (v : Slot) (d : Registry) : Registry :=
  match d with
  | [] => [(key, v)]
  | (k, w) :: rest =>
      if String.eqb key k then (k, v) :: rest else (k, w) :: assign_key key v rest
  end.

(** [del d[key]] *)
Fixpoint delete_key (key : string) (d : Registry) : Registry :=
  match d with
  | [] => []
  | (k, w) :: rest =>
      if String.eqb key k then rest else (k, w) :: delete_key key rest
  end.

(** [EEGSession.touch] *)
Definition touch (now : Z) (slot : Slot) : Slot :=
  mkSlot (session slot) (created_at slot) now.

(** [create_session]; [sid] is [str(uuid.uuid4())[:8]]. *)
Definition create_session (sid path : string) (now : Z) (d : Registry) : string * Registry :=
  (sid, assign_key sid (mkSlot (new_session sid path) now now) d).

(** [get_session]: the session object is touched in place. *)
Definition get_session (sid : string) (now : Z) (d : Registry) : option Slot * Registry :=
  match lookup sid d with
  | Some slot => (Some (touch now slot), assign_key sid (touch now slot) d)
  | None => (None, d)
  end.

(** [remove_session] *)
Definition remove_session (sid : string) (d : Registry) : Registry :=
  match lookup sid d with
  | Some _ => delete_key sid d
  | None => d
  end.

(** [now - session.last_accessed > self.SESSION_TIMEOUT] *)
Definition is_expired (now : Z) (slot : Slot) : bool :=
  (SESSION_TIMEOUT <? now - last_accessed slot)%Z.

(** [cleanup_expired] *)
Definition cleanup_expired (now : Z) (d : Registry) : Registry :=
  let expired := map fst (filter (fun kv => is_expired now (snd kv)) d) in
  fold_left (fun acc sid => remove_session sid acc) expired d.

(** [get_all_sessions]: a copy of the dictionary. *)
Definition get_all_sessions (d : Registry) : Registry := copy d.

(** The loop of [shutdown_event] in main.py. *)
Definition shutdown_event (d : Registry) : Registry :=
  fold_left (fun acc sid => remove_session sid acc) (map fst (get_all_sessions d)) d.

End WithSignals.

Arguments mkSlot {Raw Epochs Params}.
Arguments session {Raw Epochs Params}.
Arguments created_at {Raw Epochs Params}.
Arguments last_accessed {Raw Epochs Params}.
Arguments lookup {Raw Epochs Params}.
Arguments assign_key {Raw Epochs Params}.
Arguments delete_key {Raw Epochs Params}.
Arguments touch {Raw Epochs Params}.
Arguments create_session {Raw Epochs Params}.
Arguments get_session {Raw Epochs Params}.
Arguments remove_session {Raw Epochs Params}.
Arguments is_expired {Raw Epochs Params}.
Arguments cleanup_expired {Raw Epochs Params}.
Arguments get_all_sessions {Raw Epochs Params}.
Arguments shutdown_event {Raw Epochs Params}.

End SessionRegistry.

(** ** batch_processing_service.py: the service calls around a run *)

Module BatchService.
Import BatchProcessing.

(** [cancel_job] on a job whose task is not in flight (never created, or
    done): the guard, then status "cancelled" and a notification. *)
Definition cancel_job_at_rest (r : Run) : bool * Run :=
  if cancellable (status (job r)) then (true, cancel_finish r) else (false, r).

(** The text of the [ValueError] of [start_job] for a running job, before
    the job identifier. *)
Definition ALREADY_RUNNING : string := "任务正在运行中: ".

(** [start_job] on a registered job: it refuses a job whose status is
    "running" and otherwise lets a task run [_process_job]. *)
Definition start_job (path_name : string -> string) (request : BatchProcessingRequest)
    (world : nat -> FileWorld) (cancel_at : option nat) (r : Run) : Attempt Run :=
  match status (job r) with
  | running => Raises (ALREADY_RUNNING ++ job_id (job r))
  | _ => Done (_process_job path_name request world cancel_at r)
  end.

(** A progress callback is known by its identity. *)
Definition Callback : Type := nat.

(** [callback in job.progress_callbacks] *)
Definition subscribed (cbs : list Callback) (cb : Callback) : bool :=
  existsb (Nat.eqb cb) cbs.

(** [job.progress_callbacks.remove(callback)] for a callback in the list. *)
Fixpoint remove_callback (cb : Callback) (cbs : list Callback) : list Callback :=
  match cbs with
  | [] => []
  | c :: rest => if Nat.eqb cb c then rest else c :: remove_callback cb rest
  end.

(** [subscribe_progress]; the argument is [job.progress_callbacks] of the
    job [self._jobs.get(job_id)] finds, if it finds one. *)
Definition subscribe_progress (cbs : option (list Callback)) (cb : Callback)
  : bool * option (list Callback) :=
  match cbs with
  | Some l => (true, Some (l ++ [cb]))
  | None => (false, None)
  end.

(** [unsubscribe_progress] *)
Definition unsubscribe_progress (cbs : option (list Callback)) (cb : Callback)
  : bool * option (list Callback) :=
  match cbs with
  | Some l =>
      if subscribed l cb then (true, Some (remove_callback cb l)) else (false, Some l)
  | None => (false, None)
  end.

End BatchService.

(** ** tfr_jobs.py: colour bounds of the rendered images *)

Module TFRRender.

(** [colormap in ['RdBu_r', 'RdBu', 'seismic', 'coolwarm']] *)
Definition diverging (colormap : string) : bool :=
  existsb (String.eqb colormap) ["RdBu_r"; "RdBu"; "seismic"; "coolwarm"]%string.

(** The colour range of [run_morlet_job] in image mode (and, with the same
    statements, of [_render_tfr_image]): [vmin] and [vmax] as supplied, or
    else the 2nd and 98th percentile of the data ([p2], [p98]), made
    symmetric around zero for a diverging colormap.  Floats are exact
    rationals here. *)
Definition color_bounds (colormap : string) (vmin vmax : option Q) (p2 p98 : Q) : Q * Q :=
  let actual_vmin := match vmin with None => p2 | Some v => v end in
  let actual_vmax := match vmax with None => p98 | Some v => v end in
  if diverging colormap then
    let abs_max := Qmax (Qabs actual_vmin) (Qabs actual_vmax) in
    (Qopp abs_max, abs_max)
  else (actual_vmin, actual_vmax).

End TFRRender.

(** ** batch_processing_service.py: one pipeline step *)

Module BatchSteps.
Import SessionManager EEGService.

Section WithSignals.
Variables (Raw Epochs Params : Type).

Local Abbreviation Session := (EEGSession Raw Epochs Params).
Local Abbreviation Result := (Outcome Raw Epochs Params).

(** The calls of [eeg_service] that [_execute_step] makes, each taken with
    the arguments the step reads out of its [params]; [has_event_mappings]
    is the test [if event_mappings:] of the "epoch" step. *)
Record Service : Type := mkService
  { set_montage : Params -> Session -> Result;
    apply_filter : Params -> Session -> Result;
    apply_resample : Params -> Session -> Result;
    apply_rereference : Params -> Session -> Result;
    apply_ica : Params -> Session -> Result;
    crop_data : Params -> Session -> Result;
    has_event_mappings : Params -> bool;
    rename_events : Params -> Session -> Result;
    create_epochs : Params -> Session -> Result }.

(** The step types [_execute_step] has a branch for. *)
Definition HANDLED_TYPES : list string :=
  ["montage"; "filter"; "resample"; "rereference"; "ica"; "crop"; "epoch"]%string.

(** [_execute_step]: the branch of the step type, then
    [session.add_history(step.type, params)]; an exception of the service
    call ends the step before the history is written, except that what
    [rename_events] raises is swallowed. *)
Definition _execute_step (svc : Service) (step_type : string) (ps : Params)
    (now : string) (s : Session) : Result :=
  let finish (o : Result) : Result :=
    match o with
    | Returned s' => Returned (add_history step_type ps now s')
    | Raised msg s' => Raised msg s'
    end in
  if String.eqb step_type "montage" then finish (set_montage svc ps s)
  else if String.eqb step_type "filter" then finish (apply_filter svc ps s)
  else if String.eqb step_type "resample" then finish (apply_resample svc ps s)
  else if String.eqb step_type "rereference" then finish (apply_rereference svc ps s)
  else if String.eqb step_type "ica" then finish (apply_ica svc ps s)
  else if String.eqb step_type "crop" then finish (crop_data svc ps s)
  else if String.eqb step_type "epoch" then
    let s1 := if has_event_mappings svc ps
              then session_after (rename_events svc ps s) else s in
    finish (create_epochs svc ps s1)
  else finish (Returned s).

End WithSignals.

Arguments mkService {Raw Epochs Params}.
Arguments _execute_step {Raw Epochs Params}.

End BatchSteps.

(** ** eeg_service.py: the event dictionary of renamed epochs *)

Module EventRenaming.

(** [epochs.event_id]: labels to event values, as items in insertion
    order. *)
Definition EventIds : Type := list (string * Z).

(** [event_mappings.get(val)] for [event_mappings : dict[int, str]]. *)
Fixpoint mapped (event_mappings : list (Z * string)) (val : Z) : option string :=
  match event_mappings with
  | [] => None
  | (v, label) :: rest => if Z.eqb val v then Some label else mapped rest val
  end.

(** [d[key] = val] *)
Fixpoint put (key : string) (val : Z) (d : EventIds) : EventIds :=
  match d with
  | [] => [(key, val)]
  | (k, w) :: rest =>
      if String.eqb key k then (k, val) :: rest else (k, w) :: put key val rest
  end.

(** The label an entry gets: the mapped one if its value is mapped, else
    its old one. *)
Definition new_key (event_mappings : list (Z * string)) (item : string * Z) : string :=
  match mapped event_mappings (snd item) with
  | Some label => label
  | None => fst item
  end.

(** The second half of [rename_events]: the new [epochs.event_id]. *)
Definition rename_event_ids (event_mappings : list (Z * string)) (current : EventIds)
  : EventIds :=
  fold_left (fun new_event_id item => put (new_key event_mappings item) (snd item) new_event_id)
    current [].

End EventRenaming.

(** * Properties of the snapshot store *)

Section PyListFacts.
Context {A : Type}.

Lemma pop_snoc (l : list A) (x : A) : pop (l ++ [x]) = Some (x, l).
Proof.
  induction l as [|y l IH]; simpl; [reflexivity|].
  now rewrite IH.
Qed.

Lemma pop_nil_iff (l : list A) : pop l = None <-> l = [].
Proof.
  split; [|intros ->; reflexivity].
  destruct l as [|x l]; [reflexivity|]; simpl.
  destruct (pop l) as [[y rest]|]; discriminate.
Qed.

Lemma pop_some (l : list A) (x : A) (rest : list A) :
  pop l = Some (x, rest) -> l = rest ++ [x].
Proof.
  revert x rest; induction l as [|y l IH]; simpl; intros x rest H; [discriminate|].
  destruct (pop l) as [[z r]|] eqn:E.
  - injection H as <- <-. simpl. f_equal. now apply IH.
  - injection H as <- <-. apply pop_nil_iff in E. now subst.
Qed.

Lemma last_entry_snoc (l : list A) (x : A) : last_entry (l ++ [x]) = Some x.
Proof. unfold last_entry. now rewrite pop_snoc. Qed.

Lemma snoc_cases (l : list A) : l = [] \/ exists rest x, l = rest ++ [x].
Proof.
  destruct (pop l) as [[x rest]|] eqn:E.
  - right. exists rest, x. now apply pop_some.
  - left. now apply pop_nil_iff.
Qed.

Lemma option_map_copy (o : option A) : option_map copy o = o.
Proof. now destruct o. Qed.

Lemma map_snoc_inv {B : Type} (f : A -> B) (l : list A) (l' : list B) (y : B) :
  map f l = l' ++ [y] ->
  exists l0 x, l = l0 ++ [x] /\ map f l0 = l' /\ f x = y.
Proof.
  intros H. destruct (snoc_cases l) as [->|(l0 & x & ->)].
  - destruct l'; discriminate.
  - rewrite map_app in H. simpl in H.
    apply app_inj_tail in H as [H1 H2]. eauto.
Qed.
End PyListFacts.

Module SessionFacts.
Import SessionManager EEGService.

Section WithSignals.
Variables (Raw Epochs Params : Type).

Local Abbreviation Session := (EEGSession Raw Epochs Params).
Local Abbreviation Item := (StackItem Raw Epochs Params).
Local Abbreviation Entry := (HistoryEntry Params).

(** *** What each method does to a session with data *)

Lemma save_state_loaded (op : string) (ps : Params) (now : string) (s : Session) (r : Raw) :
  raw s = Some r ->
  save_state op ps now s =
  set_redo_stack []
    (set_undo_stack
       ((if MAX_UNDO_STACK <=? length (_undo_stack s)
         then tl (_undo_stack s) else _undo_stack s)
        ++ [Item3 r (Some (mkHistory op ps now)) (epochs s)]) s).
Proof.
  intros Hr. unfold save_state, capture, copy. rewrite Hr, option_map_copy.
  rewrite length_app. simpl length. unfold MAX_UNDO_STACK.
  replace (10 <? length (_undo_stack s) + 1) with (10 <=? length (_undo_stack s)).
  - destruct (10 <=? length (_undo_stack s)) eqn:E; [|reflexivity].
    destruct (_undo_stack s); [discriminate|reflexivity].
  - destruct (10 <=? length (_undo_stack s)) eqn:E; symmetry.
    + apply Nat.leb_le in E. apply Nat.ltb_lt. lia.
    + apply Nat.leb_gt in E. apply Nat.ltb_ge. lia.
Qed.

Lemma save_state_unloaded (op : string) (ps : Params) (now : string) (s : Session) :
  raw s = None -> save_state op ps now s = s.
Proof. intros Hr. unfold save_state. now rewrite Hr. Qed.

Lemma undo_empty (s : Session) : _undo_stack s = [] -> undo s = (false, s).
Proof. intros H. unfold undo. now rewrite H. Qed.

Lemma undo_snoc (s : Session) (rest : list Item) (item : Item) (r : Raw) :
  _undo_stack s = rest ++ [item] ->
  raw s = Some r ->
  undo s =
  (true,
   {| session_id := session_id s; file_path := file_path s;
      raw := Some (item_raw item); epochs := item_epochs item;
      processing_history := removelast (processing_history s);
      _undo_stack := rest;
      _redo_stack :=
        _redo_stack s ++ [Item3 r (last_entry (processing_history s)) (epochs s)] |}).
Proof.
  intros Hu Hr. unfold undo, capture, copy.
  rewrite Hu, pop_snoc, Hr, option_map_copy. reflexivity.
Qed.

Lemma redo_empty (s : Session) : _redo_stack s = [] -> redo s = (false, s).
Proof. intros H. unfold redo. now rewrite H. Qed.

Lemma redo_snoc (s : Session) (rest : list Item) (item : Item) (r : Raw) :
  _redo_stack s = rest ++ [item] ->
  raw s = Some r ->
  redo s =
  (true,
   {| session_id := session_id s; file_path := file_path s;
      raw := Some (item_raw item); epochs := item_epochs item;
      processing_history :=
        match item_history item with
        | Some h => processing_history s ++ [h]
        | None => processing_history s
        end;
      _undo_stack :=
        _undo_stack s ++ [Item3 r (last_entry (processing_history s)) (epochs s)];
      _redo_stack := rest |}).
Proof.
  intros Hu Hr. unfold redo, capture, copy.
  rewrite Hu, pop_snoc, Hr, option_map_copy.
  destruct (item_history item); reflexivity.
Qed.

(** *** Invariants of every session the program builds *)

(** Snapshots exist only of sessions with data. *)
Definition loaded_if_stacked (s : Session) : Prop :=
  raw s = None -> _undo_stack s = [] /\ _redo_stack s = [].

(** The two stacks share one budget of [MAX_UNDO_STACK] snapshots. *)
Definition within_budget (s : Session) : Prop :=
  length (_undo_stack s) + length (_redo_stack s) <= MAX_UNDO_STACK.

Lemma perform_loaded_if_stacked (c : Call Raw Epochs Params) (s : Session) :
  loaded_if_stacked s -> loaded_if_stacked (perform c s).
Proof.
  unfold loaded_if_stacked. intros Inv.
  destruct c as [r ps now|op ps now|f|op ps now| |]; simpl.
  - intros H. discriminate H.
  - unfold save_state. destruct (raw s) eqn:Hr; simpl; [|now rewrite Hr].
    rewrite Hr. discriminate.
  - destruct (raw s) eqn:Hr; simpl; [discriminate|now rewrite Hr].
  - exact Inv.
  - unfold undo. destruct (pop (_undo_stack s)) as [[it rest]|]; simpl;
      [discriminate|exact Inv].
  - unfold redo. destruct (pop (_redo_stack s)) as [[it rest]|]; simpl; [|exact Inv].
    destruct (item_history it); simpl; discriminate.
Qed.

Lemma perform_within_budget (c : Call Raw Epochs Params) (s : Session) :
  within_budget s -> within_budget (perform c s).
Proof.
  unfold within_budget, MAX_UNDO_STACK. intros Inv.
  destruct c as [r ps now|op ps now|f|op ps now| |]; simpl.
  - exact Inv.
  - unfold save_state, MAX_UNDO_STACK. destruct (raw s) eqn:Hr; simpl; [|exact Inv].
    rewrite length_app. simpl length.
    destruct (10 <? length (_undo_stack s) + 1) eqn:E.
    + destruct (_undo_stack s); simpl in *; rewrite ?length_app; simpl; lia.
    + apply Nat.ltb_ge in E. rewrite length_app. simpl. lia.
  - destruct (raw s); simpl; exact Inv.
  - exact Inv.
  - unfold undo. destruct (pop (_undo_stack s)) as [[it rest]|] eqn:E; simpl; [|exact Inv].
    apply pop_some in E. rewrite E, length_app in Inv. simpl in Inv.
    destruct (raw s); simpl; rewrite ?length_app; simpl; lia.
  - unfold redo. destruct (pop (_redo_stack s)) as [[it rest]|] eqn:E; simpl; [|exact Inv].
    apply pop_some in E. rewrite E, length_app in Inv. simpl in Inv.
    destruct (item_history it), (raw s); simpl; rewrite ?length_app; simpl; lia.
Qed.

Lemma run_calls_invariant (P : Session -> Prop) :
  (forall c s, P s -> P (perform c s)) ->
  forall calls s, P s -> P (run_calls calls s).
Proof.
  intros Step calls. unfold run_calls.
  induction calls as [|c calls IH]; simpl; intros s Hs; [exact Hs|].
  apply IH, Step, Hs.
Qed.


Lemma new_session_loaded_if_stacked (sid path : string) :
  loaded_if_stacked (new_session sid path : Session).
Proof. intros _. split; reflexivity. Qed.

Lemma new_session_within_budget (sid path : string) :
  within_budget (new_session sid path : Session).
Proof. unfold within_budget, MAX_UNDO_STACK. simpl. lia. Qed.

(** *** The contract of a single call *)

(** C2.  On every session the program builds, [undo] with an empty undo
    stack returns false and leaves the session as it is; with a non-empty
    undo stack the session has data, and [undo] returns true after pushing
    the current raw, last history entry and epochs on the redo stack,
    popping the newest snapshot, installing the snapshot's raw and epochs
    together (epochs absent when the snapshot holds none) and dropping the
    newest history entry. *)
Theorem undo_contract (sid path : string) (calls : list (Call Raw Epochs Params)) :
  let s := run_calls calls (new_session sid path) in
  (_undo_stack s = [] -> undo s = (false, s)) /\
  (forall (rest : list Item) (item : Item),
      _undo_stack s = rest ++ [item] ->
      exists r : Raw,
        raw s = Some r /\
        undo s =
        (true,
         {| session_id := session_id s; file_path := file_path s;
            raw := Some (item_raw item); epochs := item_epochs item;
            processing_history := removelast (processing_history s);
            _undo_stack := rest;
            _redo_stack :=
              _redo_stack s
              ++ [Item3 r (last_entry (processing_history s)) (epochs s)] |}) /\
        (item_epochs item = None -> epochs (snd (undo s)) = None)).
Proof.
  intros s. split; [apply undo_empty|].
  intros rest item Hu.
  assert (Inv : loaded_if_stacked s).
  { apply run_calls_invariant; [apply perform_loaded_if_stacked|].
    apply new_session_loaded_if_stacked. }
  destruct (raw s) as [r|] eqn:Hr.
  - exists r. split; [reflexivity|]. split; [now apply undo_snoc|].
    intros Hnone. rewrite (undo_snoc s rest item r Hu Hr). exact Hnone.
  - destruct (Inv Hr) as [Hnil _]. rewrite Hnil in Hu.
    destruct rest; discriminate.
Qed.

(** C3.  Whatever calls a session receives, its undo stack holds at most
    [MAX_UNDO_STACK] = 10 snapshots; a [save_state] on a full stack drops
    exactly the oldest snapshot and keeps the other nine below the new one,
    and on a stack that is not full it drops nothing. *)
Theorem undo_stack_bounded (sid path : string) (calls : list (Call Raw Epochs Params)) :
  let s := run_calls calls (new_session sid path) in
  length (_undo_stack s) <= MAX_UNDO_STACK /\
  (forall op ps now r oldest kept,
      raw s = Some r ->
      _undo_stack s = oldest :: kept ->
      length (_undo_stack s) = MAX_UNDO_STACK ->
      _undo_stack (save_state op ps now s) =
      kept ++ [Item3 r (Some (mkHistory op ps now)) (epochs s)]) /\
  (forall op ps now r,
      raw s = Some r ->
      length (_undo_stack s) < MAX_UNDO_STACK ->
      _undo_stack (save_state op ps now s) =
      _undo_stack s ++ [Item3 r (Some (mkHistory op ps now)) (epochs s)]).
Proof.
  intros s.
  assert (Inv : within_budget s).
  { apply run_calls_invariant; [apply perform_within_budget|].
    apply new_session_within_budget. }
  split; [unfold within_budget in Inv; lia|]. split.
  - intros op ps now r oldest kept Hr Hu Hlen.
    rewrite (save_state_loaded op ps now s r Hr). simpl.
    rewrite Hlen. unfold MAX_UNDO_STACK. simpl. rewrite Hu. reflexivity.
  - intros op ps now r Hr Hlen.
    rewrite (save_state_loaded op ps now s r Hr).
    unfold MAX_UNDO_STACK in *. cbn [_undo_stack set_redo_stack set_undo_stack].
    apply Nat.leb_gt in Hlen. rewrite Hlen. reflexivity.
Qed.

(** C4.  A mutating operation on a session with data returns with the
    redo stack empty, so [can_redo] answers false afterwards, whatever undos
    came before. *)
Theorem operation_clears_redo (s : Session) (r : Raw) (o : Operation Raw Epochs Params) :
  raw s = Some r ->
  exists s' : Session,
    apply_operation o s = Returned s' /\ _redo_stack s' = [] /\ can_redo s' = false.
Proof.
  intros Hr. unfold apply_operation. rewrite Hr.
  eexists. split; [reflexivity|].
  rewrite (save_state_loaded _ _ _ s r Hr). split; reflexivity.
Qed.

(** C5, as the code has it.  The snapshot [save_state] pushes on a session
    with data is the newest entry of the undo stack and holds the copy of
    raw, the copy of epochs, and a record made on the spot from the name and
    parameters of the operation about to run and the time of capture. *)
Theorem snapshot_records_pending_operation
    (s : Session) (r : Raw) (op : string) (ps : Params) (now : string) :
  raw s = Some r ->
  last_entry (_undo_stack (save_state op ps now s)) =
  Some (Item3 r (Some (mkHistory op ps now)) (epochs s)).
Proof.
  intros Hr. rewrite (save_state_loaded op ps now s r Hr). simpl.
  apply last_entry_snoc.
Qed.

(** C5, as the specification words it: the history slot of the pushed
    snapshot is the session's last history entry at capture time. *)
Definition snapshot_holds_last_entry
    (s : Session) (op : string) (ps : Params) (now : string) : Prop :=
  match last_entry (_undo_stack (save_state op ps now s)) with
  | Some it => item_history it = last_entry (processing_history s)
  | None => False
  end.

(** C10.  On a session without data [save_state] returns the session as it
    was, both stacks included, and a mutating operation raises before it
    touches the session. *)
Theorem save_state_without_data_is_noop
    (s : Session) (op : string) (ps : Params) (now : string)
    (o : Operation Raw Epochs Params) :
  raw s = None ->
  save_state op ps now s = s /\
  _undo_stack (save_state op ps now s) = _undo_stack s /\
  _redo_stack (save_state op ps now s) = _redo_stack s /\
  apply_operation o s = Raised NO_DATA s.
Proof.
  intros Hr. rewrite (save_state_unloaded op ps now s Hr).
  unfold apply_operation. rewrite Hr. repeat split.
Qed.

(** *** Undo and redo walk a timeline

    The data states a session went through form a line: the states already
    left behind (each with the record of the operation that led away from
    it), the present one, and the states undone so far (each with the record
    of the operation that leads to it).  [undo] moves one step to the left
    on this line and [redo] one step to the right; an operation appends a
    new present and forgets the future. *)

Definition DataState : Type := (Raw * option Epochs)%type.

Record Timeline : Type := mkTimeline
  { past : list (DataState * Entry);     (* oldest first *)
    present : DataState;
    future : list (Entry * DataState) }. (* nearest first *)

Definition step_left (t : Timeline) : Timeline :=
  match pop (past t) with
  | Some ((st, rec), older) => mkTimeline older st ((rec, present t) :: future t)
  | None => t
  end.

Definition step_right (t : Timeline) : Timeline :=
  match future t with
  | (rec, st) :: later => mkTimeline (past t ++ [(present t, rec)]) st later
  | [] => t
  end.

(** The future an operation sequence lays out from a data state. *)
Fixpoint planned (ops : list (Operation Raw Epochs Params)) (st : DataState)
  : list (Entry * DataState) :=
  match ops with
  | [] => []
  | o :: rest =>
      let st' := transform o (fst st) (snd st) in
      (mkHistory (op_name o) (hist_params o) (hist_time o), st') :: planned rest st'
  end.

Definition item_state (it : Item) : DataState := (item_raw it, item_epochs it).

Definition redo_item (p : Entry * DataState) : Item :=
  Item3 (fst (snd p)) (Some (fst p)) (snd (snd p)).

(** The session [s] stands at timeline [t], whose history before the first
    state of [t] was [h0].  Older snapshots may lie below those of [t] on
    the undo stack, and stale ones below those of [t] on the redo stack. *)
Definition stands_at (h0 : list Entry) (t : Timeline) (s : Session) : Prop :=
  raw s = Some (fst (present t)) /\
  epochs s = snd (present t) /\
  processing_history s = h0 ++ map snd (past t) /\
  (exists older items,
      _undo_stack s = older ++ items /\ map item_state items = map fst (past t)) /\
  (exists stale, _redo_stack s = stale ++ rev (map redo_item (future t))).

Lemma times_succ_r {X : Type} (n : nat) (f : X -> X) (x : X) :
  times (S n) f x = f (times n f x).
Proof.
  revert x. induction n as [|n IH]; intros x; [reflexivity|].
  change (times (S (S n)) f x) with (times (S n) f (f x)).
  rewrite IH. reflexivity.
Qed.

Lemma step_left_right (t : Timeline) :
  future t <> [] -> step_left (step_right t) = t.
Proof.
  destruct t as [p c [|[rec st] later]]; simpl; intros H; [congruence|].
  unfold step_right, step_left. simpl. rewrite pop_snoc. reflexivity.
Qed.

Lemma step_right_future_length (n : nat) (t : Timeline) :
  n <= length (future t) ->
  length (future (times n step_right t)) = length (future t) - n /\
  length (past (times n step_right t)) = length (past t) + n.
Proof.
  revert t. induction n as [|n IH]; intros t Hn; [simpl; lia|].
  destruct t as [p c [|[rec st] later]]; simpl in Hn; [lia|].
  change (times (S n) step_right (mkTimeline p c ((rec, st) :: later)))
    with (times n step_right (mkTimeline (p ++ [(c, rec)]) st later)).
  destruct (IH (mkTimeline (p ++ [(c, rec)]) st later)) as [H1 H2]; simpl; [lia|].
  rewrite H1, H2. simpl. rewrite length_app. simpl. lia.
Qed.

Lemma steps_left_right (n : nat) (t : Timeline) :
  n <= length (future t) -> times n step_left (times n step_right t) = t.
Proof.
  revert t. induction n as [|n IH]; intros t Hn; [reflexivity|].
  rewrite (times_succ_r n step_right).
  change (times (S n) step_left ?x) with (times n step_left (step_left x)).
  rewrite step_left_right.
  - apply IH. lia.
  - destruct (step_right_future_length n t) as [H _]; [lia|].
    intros E. rewrite E in H. simpl in H. lia.
Qed.

Lemma planned_length (ops : list (Operation Raw Epochs Params)) (st : DataState) :
  length (planned ops st) = length ops.
Proof.
  revert st. induction ops as [|o ops IH]; intros st; simpl; [reflexivity|].
  now rewrite IH.
Qed.

Lemma stands_at_view (h0 : list Entry) (t : Timeline) (s : Session) :
  stands_at h0 t s ->
  view s = (Some (fst (present t)), snd (present t), h0 ++ map snd (past t)).
Proof.
  intros (Hr & He & Hh & _). unfold view. now rewrite Hr, He, Hh.
Qed.

Lemma stands_at_start (s : Session) (r : Raw) :
  raw s = Some r ->
  stands_at (processing_history s) (mkTimeline [] (r, epochs s) []) s.
Proof.
  intros Hr. unfold stands_at. simpl. repeat split.
  - exact Hr.
  - now rewrite app_nil_r.
  - exists (_undo_stack s), []. now rewrite app_nil_r.
  - exists (_redo_stack s). now rewrite app_nil_r.
Qed.

Lemma undo_steps_left (h0 : list Entry) (t : Timeline) (s : Session) :
  stands_at h0 t s -> past t <> [] ->
  fst (undo s) = true /\ stands_at h0 (step_left t) (snd (undo s)).
Proof.
  destruct t as [p c f]. unfold stands_at. simpl.
  intros (Hr & He & Hh & (older & items & Hu & Hitems) & (stale & Hredo)) Hp.
  destruct (snoc_cases p) as [->|(p' & [st rec] & ->)]; [congruence|].
  rewrite map_app in Hitems, Hh. simpl in Hitems, Hh.
  apply map_snoc_inv in Hitems as (items' & it & -> & Hitems' & Hit).
  rewrite app_assoc in Hu, Hh.
  rewrite (undo_snoc s _ it _ Hu Hr). simpl. split; [reflexivity|].
  unfold step_left. simpl. rewrite pop_snoc. simpl.
  subst st. unfold item_state. simpl.
  repeat split.
  - rewrite Hh. apply removelast_last.
  - exists older, items'. split; [reflexivity|exact Hitems'].
  - exists stale. rewrite Hredo, Hh, last_entry_snoc, He.
    unfold redo_item. simpl. now rewrite <- app_assoc.
Qed.

Lemma redo_steps_right (h0 : list Entry) (t : Timeline) (s : Session) :
  stands_at h0 t s -> future t <> [] ->
  fst (redo s) = true /\ stands_at h0 (step_right t) (snd (redo s)).
Proof.
  destruct t as [p c f]. unfold stands_at. simpl.
  intros (Hr & He & Hh & (older & items & Hu & Hitems) & (stale & Hredo)) Hf.
  destruct f as [|[rec st] later]; [congruence|].
  simpl in Hredo. rewrite app_assoc in Hredo.
  rewrite (redo_snoc s _ _ _ Hredo Hr). simpl. split; [reflexivity|].
  repeat split.
  - rewrite Hh, map_app. simpl. now rewrite app_assoc.
  - exists older, (items ++ [Item3 (fst c) (last_entry (processing_history s)) (epochs s)]).
    split; [now rewrite Hu, app_assoc|].
    rewrite !map_app, Hitems. simpl. unfold item_state. simpl.
    rewrite He. now destruct c.
  - exists stale. reflexivity.
Qed.

Lemma operation_extends (h0 : list Entry) (p : list (DataState * Entry))
    (c : DataState) (f : list (Entry * DataState))
    (o : Operation Raw Epochs Params) (s : Session) :
  stands_at h0 (mkTimeline p c f) s ->
  length p < MAX_UNDO_STACK ->
  exists s' : Session,
    apply_operation o s = Returned s' /\
    stands_at h0
      (mkTimeline
         (p ++ [(c, mkHistory (op_name o) (hist_params o) (hist_time o))])
         (transform o (fst c) (snd c)) []) s'.
Proof.
  unfold stands_at. simpl.
  intros (Hr & He & Hh & (older & items & Hu & Hitems) & _) Hlen.
  unfold apply_operation. rewrite Hr. eexists. split; [reflexivity|].
  rewrite (save_state_loaded _ _ _ s _ Hr).
  cbn [add_history set_history set_epochs set_raw set_redo_stack set_undo_stack
       raw epochs processing_history _undo_stack _redo_stack].
  rewrite He.
  repeat split.
  - rewrite Hh, map_app. simpl. now rewrite app_assoc.
  - assert (Hn : length items = length p).
    { rewrite <- (length_map item_state items), Hitems. apply length_map. }
    set (snap := Item3 (fst c) (Some (mkHistory (op_name o) (save_params o) (save_time o)))
                   (snd c)).
    assert (Hsnap : map item_state (items ++ [snap]) = map fst p ++ [c]).
    { rewrite map_app, Hitems. simpl. unfold item_state. simpl. now destruct c. }
    rewrite map_app. simpl map.
    destruct (MAX_UNDO_STACK <=? length (_undo_stack s)) eqn:E.
    + apply Nat.leb_le in E. rewrite Hu, length_app in E.
      destruct older as [|x older]; [simpl in E; lia|].
      exists older, (items ++ [snap]). rewrite Hu. simpl tl.
      split; [now rewrite app_assoc|exact Hsnap].
    + exists older, (items ++ [snap]). rewrite Hu.
      split; [now rewrite app_assoc|exact Hsnap].
  - exists []. reflexivity.
Qed.

Lemma step_left_past_length (t : Timeline) :
  length (past (step_left t)) = length (past t) - 1.
Proof.
  destruct t as [p c f]. unfold step_left. simpl.
  destruct (snoc_cases p) as [->|(p' & [st rec] & ->)]; [reflexivity|].
  rewrite pop_snoc, length_app. simpl. lia.
Qed.

Lemma undo_times_steps_left (h0 : list Entry) (n : nat) :
  forall (t : Timeline) (s : Session),
    stands_at h0 t s -> n <= length (past t) ->
    stands_at h0 (times n step_left t) (undo_times n s).
Proof.
  unfold undo_times.
  induction n as [|n IH]; intros t s Hs Hn; [exact Hs|].
  simpl. apply IH.
  - apply undo_steps_left; [exact Hs|].
    intros E. rewrite E in Hn. simpl in Hn. lia.
  - rewrite step_left_past_length. lia.
Qed.

Lemma redo_times_steps_right (h0 : list Entry) (n : nat) :
  forall (t : Timeline) (s : Session),
    stands_at h0 t s -> n <= length (future t) ->
    stands_at h0 (times n step_right t) (redo_times n s).
Proof.
  unfold redo_times.
  induction n as [|n IH]; intros t s Hs Hn; [exact Hs|].
  simpl. apply IH.
  - apply redo_steps_right; [exact Hs|].
    intros E. rewrite E in Hn. simpl in Hn. lia.
  - destruct t as [p c [|[rec st] later]]; simpl in *; lia.
Qed.

Lemma run_ops_steps_right (h0 : list Entry) (ops : list (Operation Raw Epochs Params)) :
  forall (p : list (DataState * Entry)) (c : DataState) (s : Session),
    stands_at h0 (mkTimeline p c []) s ->
    length p + length ops <= MAX_UNDO_STACK ->
    exists s' : Session,
      run_ops ops s = Returned s' /\
      stands_at h0 (times (length ops) step_right (mkTimeline p c (planned ops c))) s'.
Proof.
  induction ops as [|o ops IH]; intros p c s Hs Hlen.
  - exists s. split; [reflexivity|exact Hs].
  - simpl in Hlen.
    destruct (operation_extends h0 p c [] o s Hs) as (s1 & Hop & Hs1); [lia|].
    destruct (IH _ _ s1 Hs1) as (s' & Hrun & Hs').
    { rewrite length_app. simpl. lia. }
    exists s'. simpl run_ops. rewrite Hop. split; [exact Hrun|exact Hs'].
Qed.

(** C1.  On a session with data, at most ten mutating operations (each
    [save_state], processing, [add_history]) all return; undoing as many
    times as there were operations brings back the raw, the epochs and the
    history the session started with, and redoing as many times again
    brings back the raw, epochs and history the operations had produced. *)
Theorem undo_redo_roundtrip
    (s : Session) (r : Raw) (ops : list (Operation Raw Epochs Params)) :
  raw s = Some r ->
  length ops <= MAX_UNDO_STACK ->
  exists s' : Session,
    run_ops ops s = Returned s' /\
    view (undo_times (length ops) s') = view s /\
    view (redo_times (length ops) (undo_times (length ops) s')) = view s'.
Proof.
  intros Hr Hlen.
  set (h0 := processing_history s).
  set (t0 := mkTimeline [] (r, epochs s) (planned ops (r, epochs s))).
  destruct (run_ops_steps_right h0 ops [] (r, epochs s) s) as (s' & Hrun & Hs');
    [now apply stands_at_start|simpl; lia|].
  fold t0 in Hs'.
  assert (Hfut : length ops <= length (future t0)).
  { unfold t0. simpl. now rewrite planned_length. }
  destruct (step_right_future_length (length ops) t0 Hfut) as [_ Hpast].
  assert (Hback : stands_at h0 t0 (undo_times (length ops) s')).
  { rewrite <- (steps_left_right (length ops) t0 Hfut) at 1.
    apply undo_times_steps_left; [exact Hs'|]. rewrite Hpast. simpl. lia. }
  exists s'. split; [exact Hrun|]. split.
  - rewrite (stands_at_view _ _ _ Hback). unfold t0, view. simpl.
    now rewrite Hr, app_nil_r.
  - rewrite (stands_at_view _ _ _ Hs').
    apply stands_at_view, redo_times_steps_right; [exact Hback|exact Hfut].
Qed.

End WithSignals.

(** *** The properties at concrete sessions

    A raw signal is represented by its sampling rate, epochs by their
    count, parameters by a number. *)

Definition demo_loaded : EEGSession nat nat nat :=
  attach_raw 100 0 "2024-01-01T10:00:00" (new_session "3f2a9c1e" "/data/sub01.fif").

Definition demo_filter : Operation nat nat nat :=
  mkOperation "filter" 1 "2024-01-01T10:01:00"
    (fun r e => (r, e)) 1 "2024-01-01T10:01:05".

Definition demo_resample : Operation nat nat nat :=
  mkOperation "resample" 50 "2024-01-01T10:02:00"
    (fun _ e => (50, e)) 50 "2024-01-01T10:02:03".

Definition demo_snapshot : StackItem nat nat nat :=
  Item3 100 (Some (mkHistory "filter" 1 "2024-01-01T10:01:00")) None.

Definition demo_full_calls : list (Call nat nat nat) :=
  CallLoad 100 0 "2024-01-01T10:00:00"
  :: repeat (CallSaveState "filter" 1 "2024-01-01T10:01:00") 10.

Lemma undo_redo_roundtrip_witness :
  raw demo_loaded = Some 100 /\
  exists s' : EEGSession nat nat nat,
    run_ops [demo_filter; demo_resample] demo_loaded = Returned s' /\
    view (undo_times 2 s') = view demo_loaded /\
    view (redo_times 2 (undo_times 2 s')) = view s'.
Proof.
  split; [reflexivity|].
  apply (undo_redo_roundtrip nat nat nat demo_loaded 100 [demo_filter; demo_resample]).
  - reflexivity.
  - unfold MAX_UNDO_STACK. simpl. lia.
Defined.

Lemma undo_contract_witness :
  undo (new_session "3f2a9c1e" "/data/sub01.fif" : EEGSession nat nat nat)
  = (false, new_session "3f2a9c1e" "/data/sub01.fif") /\
  exists r : nat,
    raw (save_state "filter" 1 "2024-01-01T10:01:00" demo_loaded) = Some r /\
    fst (undo (save_state "filter" 1 "2024-01-01T10:01:00" demo_loaded)) = true.
Proof.
  split.
  - apply (undo_contract nat nat nat "3f2a9c1e" "/data/sub01.fif" []). reflexivity.
  - destruct (undo_contract nat nat nat "3f2a9c1e" "/data/sub01.fif"
                [CallLoad 100 0 "2024-01-01T10:00:00";
                 CallSaveState "filter" 1 "2024-01-01T10:01:00"]) as [_ H].
    destruct (H [] demo_snapshot eq_refl) as (r & Hr & Hu & _).
    exists r. split; [exact Hr|].
    change (save_state "filter" 1 "2024-01-01T10:01:00" demo_loaded)
      with (run_calls [CallLoad 100 0 "2024-01-01T10:00:00";
                       CallSaveState "filter" 1 "2024-01-01T10:01:00"]
              (new_session "3f2a9c1e" "/data/sub01.fif" : EEGSession nat nat nat)).
    rewrite Hu. reflexivity.
Defined.

Lemma undo_stack_bounded_witness :
  let s := run_calls demo_full_calls (new_session "3f2a9c1e" "/data/sub01.fif") in
  length (_undo_stack s) = 10 /\
  _undo_stack (save_state "resample" 50 "2024-01-01T10:02:00" s) =
  repeat demo_snapshot 9
  ++ [Item3 100 (Some (mkHistory "resample" 50 "2024-01-01T10:02:00")) None].
Proof.
  intros s. split; [reflexivity|].
  destruct (undo_stack_bounded nat nat nat "3f2a9c1e" "/data/sub01.fif" demo_full_calls)
    as (_ & Hfull & _).
  apply (Hfull "resample"%string 50 "2024-01-01T10:02:00"%string 100 demo_snapshot
           (repeat demo_snapshot 9)); reflexivity.
Defined.

Lemma operation_clears_redo_witness :
  raw (snd (undo (session_after (apply_operation demo_filter demo_loaded)))) = Some 100 /\
  exists s' : EEGSession nat nat nat,
    apply_operation demo_resample
      (snd (undo (session_after (apply_operation demo_filter demo_loaded))))
    = Returned s' /\ _redo_stack s' = [] /\ can_redo s' = false.
Proof.
  split; [reflexivity|].
  apply (operation_clears_redo nat nat nat _ 100 demo_resample). reflexivity.
Defined.

Lemma snapshot_records_pending_operation_witness :
  raw demo_loaded = Some 100 /\
  last_entry (_undo_stack (save_state "filter" 1 "2024-01-01T10:01:00" demo_loaded)) =
  Some demo_snapshot.
Proof.
  split; [reflexivity|].
  apply (snapshot_records_pending_operation nat nat nat demo_loaded 100). reflexivity.
Defined.

(** C5 fails as worded: after loading, the last history entry is the "load"
    record, while the snapshot taken for a filter holds a "filter" record. *)
Lemma snapshot_holds_last_entry_fails :
  ~ snapshot_holds_last_entry nat nat nat demo_loaded "filter" 1 "2024-01-01T10:01:00".
Proof.
  unfold snapshot_holds_last_entry. vm_compute. intros H. discriminate H.
Qed.

Lemma save_state_without_data_is_noop_witness :
  let s := mkSession "3f2a9c1e" "/data/sub01.fif" None None [] [] [demo_snapshot] in
  raw s = None /\
  save_state "filter" 1 "2024-01-01T10:01:00" s = s /\
  _redo_stack (save_state "filter" 1 "2024-01-01T10:01:00" s) = [demo_snapshot] /\
  apply_operation demo_filter s = Raised NO_DATA s.
Proof.
  intros s. split; [reflexivity|].
  destruct (save_state_without_data_is_noop nat nat nat s "filter" 1
              "2024-01-01T10:01:00" demo_filter eq_refl) as (H1 & _ & H3 & H4).
  split; [exact H1|]. split; [exact H3|exact H4].
Defined.

End SessionFacts.

(** * Properties of the batch orchestrator *)

Module BatchFacts.
Import BatchProcessing.

(** *** Rational bounds on progress *)

(** [i / n * 100], the progress after [i] of [n] files. *)
Definition share (n i : nat) : Q :=
  ((inject_Z (Z.of_nat i) / inject_Z (Z.of_nat n)) * 100)%Q.

Lemma share_mono (n i i' : nat) : i <= i' -> (share n i <= share n i')%Q.
Proof.
  intros H. unfold share, Qdiv.
  destruct n as [|n]; unfold Qle, Qmult, Qinv, inject_Z; simpl; [lia|].
  nia.
Qed.

Lemma share_zero (n : nat) : (0 <= share n 0)%Q /\ (share n 0 <= 0)%Q.
Proof.
  unfold share, Qdiv.
  destruct n as [|n]; unfold Qle, Qmult, Qinv, inject_Z; simpl; lia.
Qed.

Lemma share_le_100 (n i : nat) : i <= n -> (share n i <= 100)%Q.
Proof.
  intros H. unfold share, Qdiv.
  destruct n as [|n]; unfold Qle, Qmult, Qinv, inject_Z; simpl.
  - assert (i = 0) by lia. subst. simpl. lia.
  - nia.
Qed.

(** *** Sequences that never go down *)

Definition nondecreasing (l : list Q) : Prop := StronglySorted Qle l.

Lemma nondecreasing_snoc (l : list Q) (q : Q) :
  nondecreasing l -> Forall (fun x => (x <= q)%Q) l -> nondecreasing (l ++ [q]).
Proof.
  unfold nondecreasing. intros Hs Hall.
  induction Hs as [|a l Hs IH Ha]; simpl.
  - constructor; constructor.
  - inversion Hall as [|? ? Haq Hall']; subst.
    constructor; [now apply IH|].
    apply Forall_app. split; [exact Ha|]. constructor; [exact Haq|constructor].
Qed.

(** *** Assignment into a list *)

Lemma assign_middle {A : Type} (pre post : list A) (old x : A) :
  assign (length pre) x (pre ++ old :: post) = pre ++ x :: post.
Proof.
  induction pre as [|y pre IH]; simpl; [reflexivity|]. now rewrite IH.
Qed.


Section Task.
Variable path_name : string -> string.
Variable request : BatchProcessingRequest.
Variable world : nat -> FileWorld.
Variable cancel_at : option nat.

Local Abbreviation steps := (preprocessing_steps request).
Local Abbreviation is_set := (is_set cancel_at).
Local Abbreviation run_steps := (run_steps cancel_at).
Local Abbreviation process_file := (process_file path_name request world cancel_at).
Local Abbreviation process_files := (process_files path_name request world cancel_at).

(** *** What the collaborators decide for a file processed to its end *)

(** The message of the first enabled step, from position [k], that raises. *)
Fixpoint first_failure (w : FileWorld) (k : nat) (l : list PreprocessingStepConfig)
  : option string :=
  match l with
  | [] => None
  | step :: rest =>
      if negb (enabled step) then first_failure w (S k) rest
      else
        match execute_step w k with
        | Raises msg => Some msg
        | Done _ => first_failure w (S k) rest
        end
  end.

(** The output path when load, steps and export all return, else the
    message of the first exception. *)
Definition verdict (w : FileWorld) : Attempt string :=
  match load_raw w with
  | Raises msg => Raises msg
  | Done _ =>
      if negb (session_found w) then Raises SESSION_FAILED
      else
        match first_failure w 0 steps with
        | Some msg => Raises msg
        | None => export_file w
        end
  end.

(** The result entry of the file at index [i] once it is processed. *)
Definition settled (i : nat) (path : string) : BatchFileResult :=
  match verdict (world i) with
  | Raises msg => mkFileResult path (path_name path) failed_file None (Some msg) None
  | Done out =>
      mkFileResult path (path_name path) success (Some out) None
        (Some (elapsed (world i)))
  end.

(** The result entry of a file not processed. *)
Definition waiting (path : string) : BatchFileResult :=
  mkFileResult path (path_name path) pending None None None.

Fixpoint settle_from (i : nat) (paths : list string) : list BatchFileResult :=
  match paths with
  | [] => []
  | path :: rest => settled i path :: settle_from (S i) rest
  end.

(** The result list when the first [m] files are processed and the others
    are not. *)
Definition results_when (m : nat) (paths : list string) : list BatchFileResult :=
  settle_from 0 (firstn m paths) ++ map waiting (skipn m paths).

Definition tally (st : FileState) (l : list BatchFileResult) : nat :=
  length (filter (fun res =>
                    match file_status res, st with
                    | pending, pending | success, success
                    | failed_file, failed_file => true
                    | _, _ => false
                    end) l).

(** How [record_failure] and [record_success] are chosen. *)
Definition record (i : nat) (path : string) (j : BatchJobStatus) : BatchJobStatus :=
  match verdict (world i) with
  | Raises msg => record_failure i path (path_name path) msg j
  | Done out => record_success i path (path_name path) out (elapsed (world i)) j
  end.

(** *** Stretches of a run that only report

    Between two changes of results, counters, progress or status the task
    only sets [current_file] and [current_step], reads the event and
    notifies. *)
Definition same_core (j j' : BatchJobStatus) : Prop :=
  job_id j' = job_id j /\ status j' = status j /\ total_files j' = total_files j /\
  completed_files j' = completed_files j /\ failed_files j' = failed_files j /\
  progress j' = progress j /\ error_message j' = error_message j /\
  results j' = results j.

Definition quiet (r r' : Run) : Prop :=
  same_core (job r) (job r') /\
  reads r <= reads r' /\
  exists evs, delivered r' = delivered r ++ evs /\ Forall (same_core (job r)) evs.

Definition flag_up (r : Run) : bool := fst (is_set r).

Lemma same_core_refl (j : BatchJobStatus) : same_core j j.
Proof. unfold same_core. repeat split. Qed.

Lemma same_core_trans (j1 j2 j3 : BatchJobStatus) :
  same_core j1 j2 -> same_core j2 j3 -> same_core j1 j3.
Proof.
  unfold same_core.
  intros (A1 & A2 & A3 & A4 & A5 & A6 & A7 & A8) (B1 & B2 & B3 & B4 & B5 & B6 & B7 & B8).
  repeat split; congruence.
Qed.

Lemma quiet_refl (r : Run) : quiet r r.
Proof.
  split; [apply same_core_refl|]. split; [lia|].
  exists []. split; [now rewrite app_nil_r|constructor].
Qed.

Lemma quiet_trans (r1 r2 r3 : Run) : quiet r1 r2 -> quiet r2 r3 -> quiet r1 r3.
Proof.
  intros (C1 & R1 & evs1 & D1 & F1) (C2 & R2 & evs2 & D2 & F2).
  split; [eapply same_core_trans; eassumption|]. split; [lia|].
  exists (evs1 ++ evs2). split; [now rewrite D2, D1, app_assoc|].
  apply Forall_app. split; [exact F1|].
  eapply Forall_impl; [|exact F2].
  intros e He. eapply same_core_trans; eassumption.
Qed.

Lemma quiet_is_set (r : Run) : quiet r (snd (is_set r)).
Proof.
  split; [apply same_core_refl|]. split; [simpl; lia|].
  exists []. simpl. split; [now rewrite app_nil_r|constructor].
Qed.

Lemma quiet_report (f : BatchJobStatus -> BatchJobStatus) (r : Run) :
  (forall j, same_core j (f j)) -> quiet r (_notify_progress (on_job f r)).
Proof.
  intros Hf. split; [apply Hf|]. split; [simpl; lia|].
  exists [f (job r)]. simpl. split; [reflexivity|].
  constructor; [apply Hf|constructor].
Qed.

Lemma same_core_current_step (v : option string) (j : BatchJobStatus) :
  same_core j (with_current_step v j).
Proof. unfold same_core. repeat split. Qed.

Lemma same_core_current_file (v : option string) (j : BatchJobStatus) :
  same_core j (with_current_file v j).
Proof. unfold same_core. repeat split. Qed.

Lemma flag_up_stays (r r' : Run) :
  reads r <= reads r' -> flag_up r = true -> flag_up r' = true.
Proof.
  unfold flag_up. simpl. destruct cancel_at as [k|]; [|discriminate].
  intros Hle H. apply Nat.leb_le in H. apply Nat.leb_le. lia.
Qed.

Lemma flag_up_never : cancel_at = None -> forall r, flag_up r = false.
Proof. intros E r. unfold flag_up. simpl. now rewrite E. Qed.

Lemma is_set_eq (r : Run) : is_set r = (flag_up r, snd (is_set r)).
Proof. reflexivity. Qed.

Lemma run_steps_cons (w : FileWorld) (k : nat) (step : PreprocessingStepConfig)
    (rest : list PreprocessingStepConfig) (r : Run) :
  run_steps w k (step :: rest) r =
  if negb (enabled step) then run_steps w (S k) rest r
  else if flag_up r then StepsEnded (snd (is_set r))
  else
    match execute_step w k with
    | Raises msg =>
        StepRaised msg
          (_notify_progress
             (on_job (with_current_step (Some (step_type step))) (snd (is_set r))))
    | Done _ =>
        run_steps w (S k) rest
          (_notify_progress
             (on_job (with_current_step (Some (step_type step))) (snd (is_set r))))
    end.
Proof. reflexivity. Qed.

Lemma process_file_eq (i : nat) (path : string) (r : Run) :
  process_file i path r =
  if flag_up r then (Break, on_job (with_status cancelled) (snd (is_set r)))
  else
    let r2 := _notify_progress
                (on_job (fun j => with_current_step (Some "loading"%string)
                                    (with_current_file (Some (path_name path)) j))
                   (snd (is_set r))) in
    match load_raw (world i) with
    | Raises msg =>
        file_done i (on_job (record_failure i path (path_name path) msg) r2)
    | Done _ =>
        if negb (session_found (world i))
        then file_done i (on_job (record_failure i path (path_name path) SESSION_FAILED) r2)
        else
          match run_steps (world i) 0 steps r2 with
          | StepRaised msg r3 =>
              file_done i (on_job (record_failure i path (path_name path) msg) r3)
          | StepsEnded r3 =>
              if flag_up r3 then (Break, snd (is_set r3))
              else
                let r5 := _notify_progress
                            (on_job (with_current_step (Some "exporting"%string))
                               (snd (is_set r3))) in
                match export_file (world i) with
                | Raises msg =>
                    file_done i (on_job (record_failure i path (path_name path) msg) r5)
                | Done out =>
                    file_done i
                      (on_job (record_success i path (path_name path) out
                                 (elapsed (world i))) r5)
                end
          end
    end.
Proof. reflexivity. Qed.

(** The step loop ends on an exception of the first failing step, or runs
    to the end of the list, or stops early because the event is set. *)
Lemma run_steps_cases (w : FileWorld) (l : list PreprocessingStepConfig) :
  forall (k : nat) (r : Run),
    exists rq : Run,
      quiet r rq /\
      ((exists msg, run_steps w k l r = StepRaised msg rq /\
                    first_failure w k l = Some msg) \/
       (run_steps w k l r = StepsEnded rq /\
        (first_failure w k l = None \/ flag_up rq = true))).
Proof.
  induction l as [|step rest IH]; intros k r.
  - exists r. split; [apply quiet_refl|]. right. split; [reflexivity|now left].
  - rewrite run_steps_cons. simpl first_failure.
    destruct (enabled step); simpl negb; cbv iota; [|apply IH].
    destruct (flag_up r) eqn:Hflag.
    + exists (snd (is_set r)). split; [apply quiet_is_set|].
      right. split; [reflexivity|]. right.
      apply (flag_up_stays r); [simpl; lia|exact Hflag].
    + set (r2 := _notify_progress
                   (on_job (with_current_step (Some (step_type step))) (snd (is_set r)))).
      assert (Hq : quiet r r2).
      { eapply quiet_trans; [apply quiet_is_set|].
        apply quiet_report. apply same_core_current_step. }
      destruct (execute_step w k) as [[]|msg].
      * destruct (IH (S k) r2) as (rq & Hq' & Hcases).
        exists rq. split; [eapply quiet_trans; eassumption|exact Hcases].
      * exists r2. split; [exact Hq|]. left. exists msg. split; reflexivity.
Qed.

(** One iteration of the file loop: after a stretch that only reports, it
    breaks with status "cancelled", or breaks leaving the status alone, or
    records the file's outcome and reports the new progress. *)
Lemma process_file_cases (i : nat) (path : string) (r : Run) :
  exists rq : Run,
    quiet r rq /\
    ((process_file i path r = (Break, on_job (with_status cancelled) rq) /\
      cancel_at <> None) \/
     (process_file i path r = (Break, rq) /\ cancel_at <> None) \/
     process_file i path r = file_done i (on_job (record i path) rq)).
Proof.
  assert (Hup : forall x, flag_up x = true -> cancel_at <> None).
  { intros x Hx E. rewrite (flag_up_never E) in Hx. discriminate. }
  rewrite process_file_eq.
  destruct (flag_up r) eqn:Hflag.
  - exists (snd (is_set r)). split; [apply quiet_is_set|]. left.
    split; [reflexivity|now apply (Hup r)].
  - cbv zeta. set (r2 := _notify_progress (on_job _ (snd (is_set r)))).
    assert (Hq2 : quiet r r2).
    { eapply quiet_trans; [apply quiet_is_set|].
      apply quiet_report. intros j.
      eapply same_core_trans; [apply same_core_current_file|apply same_core_current_step]. }
    unfold record, verdict.
    destruct (load_raw (world i)) as [[]|msg].
    2:{ exists r2. split; [exact Hq2|]. right. right. reflexivity. }
    destruct (session_found (world i)); simpl negb; cbv iota.
    2:{ exists r2. split; [exact Hq2|]. right. right. reflexivity. }
    destruct (run_steps_cases (world i) steps 0 r2)
      as (r3 & Hq3 & [(msg & -> & ->)|(-> & Hend)]).
    { exists r3. split; [eapply quiet_trans; eassumption|]. right. right. reflexivity. }
    destruct (flag_up r3) eqn:Hflag3.
    { exists (snd (is_set r3)).
      split; [eapply quiet_trans; [eassumption|]; eapply quiet_trans;
              [eassumption|apply quiet_is_set]|].
      right. left. split; [reflexivity|now apply (Hup r3)]. }
    destruct Hend as [->|Habs]; [|congruence].
    cbv zeta. set (r5 := _notify_progress (on_job _ (snd (is_set r3)))).
    exists r5. split.
    { eapply quiet_trans; [exact Hq2|]. eapply quiet_trans; [exact Hq3|].
      eapply quiet_trans; [apply quiet_is_set|].
      apply quiet_report. apply same_core_current_step. }
    right. right. destruct (export_file (world i)); reflexivity.
Qed.

(** *** The invariant of the file loop *)

(** Progress never went down so far, and is now at least what was last
    reported. *)
Definition ordered (r : Run) : Prop :=
  nondecreasing (map progress (delivered r)) /\
  Forall (fun e => (progress e <= progress (job r))%Q) (delivered r).

Definition all_running (evs : list BatchJobStatus) : Prop :=
  Forall (fun e => status e = running) evs.

(** The files [pre] are processed, the files [rest] are not. *)
Definition at_file (pre rest : list string) (r : Run) : Prop :=
  total_files (job r) = length (pre ++ rest) /\
  results (job r) = settle_from 0 pre ++ map waiting rest /\
  completed_files (job r) = tally success (settle_from 0 pre) /\
  failed_files (job r) = tally failed_file (settle_from 0 pre) /\
  (progress (job r) <= share (length (pre ++ rest)) (length pre))%Q /\
  ordered r /\
  all_running (delivered r).

Lemma ordered_grow (l evs : list BatchJobStatus) (q q' : Q) :
  nondecreasing (map progress l) ->
  Forall (fun e => (progress e <= q)%Q) l ->
  (q <= q')%Q ->
  Forall (fun e => progress e = q \/ progress e = q') evs ->
  nondecreasing (map progress evs) ->
  nondecreasing (map progress (l ++ evs)) /\
  Forall (fun e => (progress e <= q')%Q) (l ++ evs).
Proof.
  intros Hs Hall Hq Hevs Hsevs. split.
  - rewrite map_app. unfold nondecreasing in *.
    induction l as [|a l IH]; simpl; [exact Hsevs|].
    inversion Hs as [|? ? Hs' Ha]; subst. inversion Hall as [|? ? Haq Hall']; subst.
    constructor; [now apply IH|].
    apply Forall_app. split; [exact Ha|].
    apply Forall_map. eapply Forall_impl; [|exact Hevs].
    intros e [E|E]; cbv beta; rewrite E; [exact Haq|eapply Qle_trans; eassumption].
  - apply Forall_app. split.
    + eapply Forall_impl; [|exact Hall].
      intros e He. cbv beta in *. eapply Qle_trans; eassumption.
    + eapply Forall_impl; [|exact Hevs].
      intros e [E|E]; cbv beta; rewrite E; [exact Hq|apply Qle_refl].
Qed.

Lemma constant_nondecreasing (evs : list BatchJobStatus) (q : Q) :
  Forall (fun e => progress e = q) evs -> nondecreasing (map progress evs).
Proof.
  unfold nondecreasing. induction 1 as [|e evs He Hall IH]; simpl; constructor.
  - exact IH.
  - apply Forall_map. eapply Forall_impl; [|exact Hall].
    intros e' He'. simpl. rewrite He, He'. apply Qle_refl.
Qed.

Lemma quiet_keeps (pre rest : list string) (r rq : Run) :
  quiet r rq -> at_file pre rest r -> status (job r) = running ->
  at_file pre rest rq /\ status (job rq) = running.
Proof.
  intros ((C1 & C2 & C3 & C4 & C5 & C6 & C7 & C8) & _ & evs & Hd & Hevs)
         (A1 & A2 & A3 & A4 & A5 & (O1 & O2) & A7) Hrun.
  split; [|congruence].
  unfold at_file. rewrite C3, C8, C4, C5, C6.
  repeat split; try assumption.
  - rewrite Hd. apply (ordered_grow _ evs (progress (job r)) (progress (job r)));
      try assumption; [apply Qle_refl| |].
    + eapply Forall_impl; [|exact Hevs]. intros e (_ & _ & _ & _ & _ & E & _). now left.
    + apply (constant_nondecreasing _ (progress (job r))).
      eapply Forall_impl; [|exact Hevs]. intros e (_ & _ & _ & _ & _ & E & _). exact E.
  - unfold ordered. rewrite C6, Hd.
    apply (ordered_grow _ evs (progress (job r)) (progress (job r)));
      try assumption; [apply Qle_refl| |].
    + eapply Forall_impl; [|exact Hevs]. intros e (_ & _ & _ & _ & _ & E & _). now left.
    + apply (constant_nondecreasing _ (progress (job r))).
      eapply Forall_impl; [|exact Hevs]. intros e (_ & _ & _ & _ & _ & E & _). exact E.
  - unfold all_running. rewrite Hd. apply Forall_app. split; [exact A7|].
    eapply Forall_impl; [|exact Hevs]. intros e (_ & E & _). congruence.
Qed.

Lemma settle_from_app (i : nat) (a b : list string) :
  settle_from i (a ++ b) = settle_from i a ++ settle_from (i + length a) b.
Proof.
  revert i. induction a as [|p a IH]; intros i; simpl.
  - now rewrite Nat.add_0_r.
  - rewrite IH. now rewrite Nat.add_succ_r.
Qed.

Lemma settle_from_length (i : nat) (a : list string) :
  length (settle_from i a) = length a.
Proof. revert i. induction a as [|p a IH]; intros i; simpl; [reflexivity|now rewrite IH]. Qed.

Lemma tally_snoc (st : FileState) (l : list BatchFileResult) (x : BatchFileResult) :
  tally st (l ++ [x]) = tally st l + tally st [x].
Proof. unfold tally. now rewrite filter_app, length_app. Qed.

Lemma settled_tally (i : nat) (path : string) :
  (exists msg, verdict (world i) = Raises msg /\
               tally success [settled i path] = 0 /\
               tally failed_file [settled i path] = 1) \/
  (exists out, verdict (world i) = Done out /\
               tally success [settled i path] = 1 /\
               tally failed_file [settled i path] = 0).
Proof.
  unfold settled. destruct (verdict (world i)) as [out|msg].
  - right. exists out. repeat split.
  - left. exists msg. repeat split.
Qed.

(** Recording the outcome of the file at the head of [rest] and reporting
    the new progress moves the invariant one file on. *)
Lemma record_keeps (pre rest : list string) (path : string) (rq : Run) :
  at_file pre (path :: rest) rq -> status (job rq) = running ->
  let r' := snd (file_done (length pre) (on_job (record (length pre) path) rq)) in
  at_file (pre ++ [path]) rest r' /\ status (job r') = running.
Proof.
  intros (A1 & A2 & A3 & A4 & A5 & (O1 & O2) & A7) Hrun r'.
  assert (Hlen : length ((pre ++ [path]) ++ rest) = length (pre ++ path :: rest)).
  { now rewrite <- app_assoc. }
  assert (Hres : results (job r') = settle_from 0 (pre ++ [path]) ++ map waiting rest).
  { subst r'. unfold file_done, record, record_failure, record_success, settled in *.
    rewrite settle_from_app. simpl settle_from. rewrite <- app_assoc. simpl app.
    unfold settled.
    destruct (verdict (world (length pre))) as [out|msg]; simpl; rewrite A2;
      simpl map; rewrite <- (settle_from_length 0 pre) at 1; apply assign_middle. }
  assert (Hcount : completed_files (job r') = tally success (settle_from 0 (pre ++ [path])) /\
                   failed_files (job r') = tally failed_file (settle_from 0 (pre ++ [path]))).
  { rewrite settle_from_app. simpl settle_from. rewrite !tally_snoc. simpl Nat.add.
    destruct (settled_tally (length pre) path)
      as [(msg & Hv & -> & ->)|(out & Hv & -> & ->)];
      subst r'; unfold file_done, record; rewrite Hv; simpl; rewrite A3, A4; lia. }
  assert (Hprog : progress (job r') = share (length (pre ++ path :: rest)) (length pre + 1)).
  { subst r'. unfold file_done, record, progress_after. simpl.
    destruct (verdict (world (length pre))); simpl; now rewrite A1. }
  assert (Hstat : status (job r') = running).
  { subst r'. unfold file_done, record. simpl.
    destruct (verdict (world (length pre))); simpl; exact Hrun. }
  assert (Htot : total_files (job r') = length (pre ++ path :: rest)).
  { subst r'. unfold file_done, record. simpl.
    destruct (verdict (world (length pre))); simpl; exact A1. }
  assert (Hdel : delivered r' = delivered rq ++ [job r']).
  { reflexivity. }
  assert (Hup : (progress (job rq) <= progress (job r'))%Q).
  { rewrite Hprog. eapply Qle_trans; [exact A5|]. apply share_mono. lia. }
  split; [|exact Hstat].
  unfold at_file. rewrite Hlen.
  replace (length (pre ++ [path])) with (length pre + 1)
    by (rewrite length_app; reflexivity).
  destruct Hcount as [Hc Hf].
  repeat split; try assumption.
  - rewrite Hprog. apply Qle_refl.
  - rewrite Hdel, map_app. simpl map. apply nondecreasing_snoc; [exact O1|].
    apply Forall_map. eapply Forall_impl; [|exact O2].
    intros e He. cbv beta in *. eapply Qle_trans; eassumption.
  - rewrite Hdel. apply Forall_app. split.
    + eapply Forall_impl; [|exact O2].
      intros e He. cbv beta in *. eapply Qle_trans; eassumption.
    + constructor; [apply Qle_refl|constructor].
  - unfold all_running. rewrite Hdel. apply Forall_app. split; [exact A7|].
    constructor; [exact Hstat|constructor].
Qed.

Lemma at_file_with_status (pre rest : list string) (v : JobState) (r : Run) :
  at_file pre rest r -> at_file pre rest (on_job (with_status v) r).
Proof. intros H. exact H. Qed.

(** The file loop either processes every file, or breaks at some file with
    the event set, leaving this file and the later ones unprocessed. *)
Lemma process_files_outcome (rest : list string) :
  forall (pre : list string) (r : Run),
    at_file pre rest r -> status (job r) = running ->
    let r' := process_files (length pre) rest r in
    (at_file (pre ++ rest) [] r' /\ status (job r') = running) \/
    (cancel_at <> None /\
     exists pre' rest',
       pre' ++ rest' = pre ++ rest /\ rest' <> [] /\ at_file pre' rest' r' /\
       (status (job r') = running \/ status (job r') = cancelled)).
Proof.
  induction rest as [|path rest IH]; intros pre r Hat Hrun.
  - left. simpl. rewrite app_nil_r. split; assumption.
  - cbv zeta. simpl BatchProcessing.process_files.
    destruct (process_file_cases (length pre) path r) as (rq & Hq & Hcases).
    destruct (quiet_keeps pre (path :: rest) r rq Hq Hat Hrun) as [Hatq Hrunq].
    destruct Hcases as [(E & Hc)|[(E & Hc)|E]]; rewrite E.
    + right. split; [exact Hc|]. exists pre, (path :: rest).
      split; [reflexivity|]. split; [discriminate|].
      split; [now apply at_file_with_status|now right].
    + right. split; [exact Hc|]. exists pre, (path :: rest).
      split; [reflexivity|]. split; [discriminate|].
      split; [exact Hatq|now left].
    + unfold file_done at 1.
      destruct (record_keeps pre rest path rq Hatq Hrunq) as [Hat' Hrun'].
      specialize (IH (pre ++ [path]) _ Hat' Hrun'). cbv zeta in IH.
      rewrite length_app, Nat.add_1_r, <- app_assoc in IH. exact IH.
Qed.

Lemma create_job_at_file (jid : string) :
  let r1 := _notify_progress
              (on_job (with_status running) (create_job path_name request jid)) in
  at_file [] (file_paths request) r1 /\ status (job r1) = running.
Proof.
  intros r1. split; [|reflexivity].
  unfold at_file. simpl.
  repeat split.
  - apply share_zero.
  - constructor; constructor.
  - constructor; [apply Qle_refl|constructor].
  - constructor; [reflexivity|constructor].
Qed.

(** What a run of [_process_job] on a new job leaves behind. *)
Definition outcome (pre rest : list string) (r : Run) : Prop :=
  total_files (job r) = length (file_paths request) /\
  results (job r) = settle_from 0 pre ++ map waiting rest /\
  completed_files (job r) = tally success (settle_from 0 pre) /\
  failed_files (job r) = tally failed_file (settle_from 0 pre) /\
  ordered r /\
  ((status (job r) = completed /\ progress (job r) = 100%Q /\
    (exists evs, delivered r = evs ++ [job r] /\ all_running evs) /\
    (cancel_at = None -> rest = [])) \/
   (status (job r) = cancelled /\ cancel_at <> None /\ rest <> [] /\
    all_running (delivered r))).

Lemma process_job_outcome (jid : string) :
  exists pre rest : list string,
    pre ++ rest = file_paths request /\
    outcome pre rest
      (_process_job path_name request world cancel_at (create_job path_name request jid)).
Proof.
  destruct (create_job_at_file jid) as [Hat1 Hrun1].
  set (r1 := _notify_progress _) in *.
  pose proof (process_files_outcome (file_paths request) [] r1 Hat1 Hrun1) as Hloop.
  cbv zeta in Hloop. simpl length in Hloop. simpl app in Hloop.
  unfold _process_job. fold r1.
  set (r2 := process_files 0 (file_paths request) r1) in *.
  assert (Hdone : forall pre rest,
             pre ++ rest = file_paths request -> at_file pre rest r2 ->
             status (job r2) = running -> (cancel_at = None -> rest = []) ->
             outcome pre rest
               (_notify_progress
                  (on_job (fun j => with_progress 100%Q
                                      (with_current_step None
                                         (with_current_file None
                                            (with_status completed j)))) r2))).
  { intros pre rest Hsplit (A1 & A2 & A3 & A4 & A5 & (O1 & O2) & A7) Hrun Hnone.
    assert (Hle : (progress (job r2) <= 100)%Q).
    { eapply Qle_trans; [exact A5|]. apply share_le_100.
      rewrite length_app. lia. }
    unfold outcome.
    set (rf := _notify_progress _).
    assert (Hd : delivered rf = delivered r2 ++ [job rf]) by reflexivity.
    assert (Hp : progress (job rf) = 100%Q) by reflexivity.
    split; [change (total_files (job rf)) with (total_files (job r2));
            now rewrite A1, Hsplit|].
    split; [exact A2|]. split; [exact A3|]. split; [exact A4|].
    split.
    - split.
      + rewrite Hd, map_app.
        change (map progress [job rf]) with [100%Q].
        apply nondecreasing_snoc; [exact O1|].
        apply Forall_map. eapply Forall_impl; [|exact O2].
        intros e He. cbv beta in *. eapply Qle_trans; eassumption.
      + rewrite Hd. apply Forall_app. split.
        * eapply Forall_impl; [|exact O2].
          intros e He. cbv beta in *. rewrite Hp. eapply Qle_trans; eassumption.
        * constructor; [apply Qle_refl|constructor].
    - left. split; [reflexivity|]. split; [reflexivity|].
      split; [|exact Hnone]. exists (delivered r2). split; [exact Hd|exact A7]. }
  destruct Hloop as [[Hat Hrun]|(Hc & pre & rest & Hsplit & Hne & Hat & [Hrun|Hcan])].
  - exists (file_paths request), []. split; [apply app_nil_r|].
    rewrite Hrun. apply Hdone; [apply app_nil_r|exact Hat|exact Hrun|reflexivity].
  - exists pre, rest. split; [exact Hsplit|].
    rewrite Hrun. apply Hdone; [exact Hsplit|exact Hat|exact Hrun|].
    intros E. congruence.
  - exists pre, rest. split; [exact Hsplit|].
    rewrite Hcan. destruct Hat as (A1 & A2 & A3 & A4 & A5 & HO & A7).
    unfold outcome.
    split; [now rewrite A1, Hsplit|].
    split; [exact A2|]. split; [exact A3|]. split; [exact A4|].
    split; [exact HO|].
    right. split; [exact Hcan|]. split; [exact Hc|]. split; [exact Hne|exact A7].
Qed.

Lemma settle_from_nth (paths : list string) :
  forall (i0 i : nat) (path : string),
    nth_error paths i = Some path ->
    nth_error (settle_from i0 paths) i = Some (settled (i0 + i) path).
Proof.
  induction paths as [|p paths IH]; intros i0 i path H.
  - destruct i; discriminate.
  - destruct i as [|i]; simpl in *.
    + injection H as ->. now rewrite Nat.add_0_r.
    + rewrite (IH (S i0) i path H). now rewrite Nat.add_succ_r.
Qed.

Lemma settle_from_tally (paths : list string) (i0 : nat) :
  tally success (settle_from i0 paths) + tally failed_file (settle_from i0 paths)
  = length paths.
Proof.
  revert i0. induction paths as [|p paths IH]; intros i0; [reflexivity|].
  specialize (IH (S i0)). unfold tally in *. simpl.
  unfold settled at 1 3. destruct (verdict (world i0)); simpl; lia.
Qed.

End Task.

(** *** The specified properties *)

(** C6.  When no cancellation is seen, [_process_job] on a new job ends
    with status "completed"; every file has been processed, whatever
    happened to the files before it: its result entry is "failed" with the
    text of the exception when load, a step or the export raised, and
    "success" with the output path otherwise; the two counters count these
    entries and add up to the number of files.  So with three files of
    which one fails the job is completed with two completed and one failed
    file. *)
Theorem failure_does_not_abort
    (path_name : string -> string) (request : BatchProcessingRequest)
    (world : nat -> FileWorld) (jid : string) :
  let r := _process_job path_name request world None
             (create_job path_name request jid) in
  status (job r) = completed /\
  (forall i path msg,
      nth_error (file_paths request) i = Some path ->
      verdict request (world i) = Raises msg ->
      nth_error (results (job r)) i =
      Some (mkFileResult path (path_name path) failed_file None (Some msg) None)) /\
  (forall i path out,
      nth_error (file_paths request) i = Some path ->
      verdict request (world i) = Done out ->
      nth_error (results (job r)) i =
      Some (mkFileResult path (path_name path) success (Some out) None
              (Some (elapsed (world i))))) /\
  completed_files (job r) = tally success (results (job r)) /\
  failed_files (job r) = tally failed_file (results (job r)) /\
  completed_files (job r) + failed_files (job r) = length (file_paths request) /\
  (length (file_paths request) = 3 -> tally failed_file (results (job r)) = 1 ->
   completed_files (job r) = 2 /\ failed_files (job r) = 1).
Proof.
  intros r.
  destruct (process_job_outcome path_name request world None jid)
    as (pre & rest & Hsplit & Htot & Hres & Hok & Hbad & _ & Hend).
  fold r in Htot, Hres, Hok, Hbad, Hend.
  destruct Hend as [(Hst & _ & _ & Hnone)|(_ & Habs & _)]; [|congruence].
  rewrite (Hnone eq_refl) in *. rewrite app_nil_r in Hsplit. subst pre.
  simpl map in Hres. rewrite app_nil_r in Hres.
  pose proof (settle_from_tally path_name request world (file_paths request) 0) as Hsum.
  split; [exact Hst|]. split; [|split]; [| |rewrite Hres, Hok, Hbad; repeat split; lia].
  - intros i path msg Hi Hv. rewrite Hres, (settle_from_nth _ _ _ _ 0 i path Hi).
    unfold settled. simpl. now rewrite Hv.
  - intros i path out Hi Hv. rewrite Hres, (settle_from_nth _ _ _ _ 0 i path Hi).
    unfold settled. simpl. now rewrite Hv.
Qed.


(** C8.  The progress values handed to the callbacks during a run of
    [_process_job] on a new job never decrease, whenever the cancellation
    event becomes set; a run that sees no cancellation delivers the
    "completed" status last, and a job cancelled through [cancel_job]
    receives non-decreasing progress too and the "cancelled" status last.
    In both cases the last status delivered is the final state of the job. *)
Theorem progress_never_decreases
    (path_name : string -> string) (request : BatchProcessingRequest)
    (world : nat -> FileWorld) (jid : string) :
  (forall cancel_at : option nat,
      nondecreasing
        (map progress
           (delivered (_process_job path_name request world cancel_at
                         (create_job path_name request jid))))) /\
  (let r := _process_job path_name request world None
              (create_job path_name request jid) in
   last_entry (delivered r) = Some (job r) /\ status (job r) = completed) /\
  (forall task : Task,
      let r := snd (cancel_job path_name request world jid task) in
      nondecreasing (map progress (delivered r)) /\
      last_entry (delivered r) = Some (job r) /\ status (job r) = cancelled).
Proof.
  split; [|split].
  - intros cancel_at.
    destruct (process_job_outcome path_name request world cancel_at jid)
      as (pre & rest & _ & _ & _ & _ & _ & (HO & _) & _). exact HO.
  - destruct (process_job_outcome path_name request world None jid)
      as (pre & rest & _ & _ & _ & _ & _ & _ & Hend).
    destruct Hend as [(Hst & _ & (evs & Hd & _) & _)|(_ & Habs & _)]; [|congruence].
    cbv zeta. split; [|exact Hst]. rewrite Hd. apply last_entry_snoc.
  - intros [| |k]; cbv zeta.
    + simpl. repeat split. constructor; constructor.
    + simpl. repeat split. constructor; constructor.
    + unfold cancel_job. simpl snd.
      destruct (process_job_outcome path_name request world (Some k) jid)
        as (pre & rest & _ & _ & _ & _ & _ & (O1 & O2) & _).
      set (rp := _process_job _ _ _ _ _) in *.
      split; [|split; [apply last_entry_snoc|reflexivity]].
      change (delivered (cancel_finish rp))
        with (delivered rp ++ [with_status cancelled (job rp)]).
      rewrite map_app. apply nondecreasing_snoc; [exact O1|].
      apply Forall_map. exact O2.
Qed.


(** *** A three-file job *)

Fixpoint contains_slash (s : string) : bool :=
  match s with
  | EmptyString => false
  | String c rest => if Ascii.eqb c "/"%char then true else contains_slash rest
  end.

(** The last component of a path with "/" as separator. *)
Fixpoint basename (s : string) : string :=
  match s with
  | EmptyString => EmptyString
  | String _ rest => if contains_slash s then basename rest else s
  end.

Definition demo_request : BatchProcessingRequest :=
  mkRequest ["/data/s01.fif"; "/data/s02.fif"; "/data/s03.fif"]%string
    [mkStep "1" "filter" true; mkStep "2" "ica" false; mkStep "3" "resample" true]
    "/out" "fif" false.

(** Every call returns, except that resampling the second file raises. *)
Definition demo_world (i : nat) : FileWorld :=
  mkFileWorld (Done tt) true
    (fun k => if (i =? 1) && (k =? 2) then Raises "sfreq must be positive" else Done tt)
    (Done "/out/processed.fif"%string) (3 # 2)%Q.

Lemma failure_does_not_abort_witness :
  let r := _process_job basename demo_request demo_world None
             (create_job basename demo_request "7c9e6679a1b2") in
  status (job r) = completed /\
  completed_files (job r) = 2 /\ failed_files (job r) = 1 /\
  nth_error (results (job r)) 1 =
  Some (mkFileResult "/data/s02.fif" "s02.fif" failed_file None
          (Some "sfreq must be positive"%string) None) /\
  nth_error (results (job r)) 2 =
  Some (mkFileResult "/data/s03.fif" "s03.fif" success
          (Some "/out/processed.fif"%string) None (Some (3 # 2)%Q)).
Proof.
  intros r.
  destruct (failure_does_not_abort basename demo_request demo_world "7c9e6679a1b2")
    as (Hst & Hfail & Hok & _ & _ & _ & Hthree).
  fold r in Hst, Hfail, Hok, Hthree.
  assert (Hlen : length (file_paths demo_request) = 3) by reflexivity.
  assert (Hone : tally failed_file (results (job r)) = 1) by (vm_compute; reflexivity).
  destruct (Hthree Hlen Hone) as [Hc Hf].
  split; [exact Hst|]. split; [exact Hc|]. split; [exact Hf|]. split.
  - apply (Hfail 1 "/data/s02.fif"%string "sfreq must be positive"%string);
      vm_compute; reflexivity.
  - apply (Hok 2 "/data/s03.fif"%string "/out/processed.fif"%string);
      vm_compute; reflexivity.
Defined.

(** A cancellation first seen between the steps of the first file (read
    number 2) leaves the step loop and the file loop without setting the
    status, so the task itself still reports "completed" with progress 100
    before [cancel_job] reports "cancelled"; all three files stay
    "pending". *)
Example cancel_between_steps :
  let r := snd (cancel_job basename demo_request demo_world "7c9e6679a1b2" (InFlight 2)) in
  map file_status (results (job r)) = [pending; pending; pending] /\
  map (fun e => (status e, progress e)) (delivered r) =
  [(running, 0%Q); (running, 0%Q); (running, 0%Q);
   (completed, 100%Q); (cancelled, 100%Q)].
Proof. split; vm_compute; reflexivity. Qed.

End BatchFacts.

(** * Properties of the analysis job engine *)

Module TFRFacts.
Import TFRJobs.

Section WithResult.
Variable Result : Type.
Variable world : World Result.
Variable cancel_at : option nat.

Local Abbreviation Job := (TFRJob Result).
Local Abbreviation update := (update cancel_at).
Local Abbreviation fail := (fail cancel_at).
Local Abbreviation stop_cancelled := (stop_cancelled cancel_at).

(** A job at rest: "completed" with a result, or "error" with a message. *)
Definition settled (j : Job) : Prop :=
  (status j = Completed /\ exists r, result j = Some r) \/
  (status j = Error /\ exists msg, error j = Some msg).

Lemma cancel_job_accepted (j : Job) :
  status j = Pending \/ status j = Running ->
  fst (cancel_job j) = true /\
  status (snd (cancel_job j)) = Error /\
  error (snd (cancel_job j)) = Some CANCELLED_MSG /\
  cancelled (snd (cancel_job j)) = true.
Proof. unfold cancel_job. intros [-> | ->]; repeat split. Qed.

Lemma cancel_job_refused (j : Job) :
  status j = Completed \/ status j = Error -> cancel_job j = (false, j).
Proof. unfold cancel_job. now intros [-> | ->]. Qed.

Lemma fail_settled (msg : string) (w : Worker Result) : settled (job (fail msg w)).
Proof. right. split; [reflexivity|]. exists msg. reflexivity. Qed.

Lemma stop_cancelled_settled (w : Worker Result) :
  status (job (stop_cancelled w)) = Error /\
  error (job (stop_cancelled w)) = Some CANCELLED_MSG.
Proof. split; reflexivity. Qed.

Lemma complete_settled (pr : Q) (r : Result) (w : Worker Result) :
  settled (job (update (Some Completed) (Some pr) None (Some r) w)).
Proof. left. split; [reflexivity|]. exists r. reflexivity. Qed.

Lemma batches_returned (starts : list nat) (n b : nat) :
  forall (total : nat) (w w' : Worker Result),
    batches world cancel_at starts n b total w = LoopReturned w' ->
    status (job w') = Error /\ error (job w') = Some CANCELLED_MSG.
Proof.
  induction starts as [|i starts IH]; intros total w w' H; simpl in H; [discriminate|].
  destruct (cancelled (job (tick cancel_at w))).
  - injection H as <-. apply stop_cancelled_settled.
  - destruct (tfr_batch world i); [|discriminate]. eapply IH, H.
Qed.

Lemma channels_returned (names : list string) (n : nat) :
  forall (ci : nat) (w w' : Worker Result),
    channels world cancel_at ci names n w = LoopReturned w' ->
    status (job w') = Error /\ error (job w') = Some CANCELLED_MSG.
Proof.
  induction names as [|c names IH]; intros ci w w' H; simpl in H; [discriminate|].
  destruct (cancelled (job (tick cancel_at w))).
  - injection H as <-. apply stop_cancelled_settled.
  - destruct (render_channel world ci); [|discriminate]. eapply IH, H.
Qed.

(** Every run on a registered new job leaves the job at rest, whenever the
    cancellation comes. *)
Lemma run_ends_settled (jid : string) :
  settled (job (run_morlet_job world cancel_at (start jid))).
Proof.
  unfold run_morlet_job, read_cancelled.
  destruct (cancelled (job (tick cancel_at (start jid)))) eqn:Hseen.
  - revert Hseen. unfold tick, start. simpl.
    destruct cancel_at as [[|k]|]; simpl; try discriminate.
    intros _. right. split; [reflexivity|]. eexists. reflexivity.
  - destruct (prepare world) as [n|msg]; [|apply fail_settled].
    destruct ((if 10 <=? n then 5 else n) =? 0); [apply fail_settled|].
    destruct (batches _ _ _ _ _ _ _) as [w4|w4|msg w4] eqn:Hb.
    + destruct (average world); [|apply fail_settled].
      destruct (render_image world); [|apply complete_settled].
      destruct (render_roi world); [|apply fail_settled].
      destruct (channels _ _ _ _ _ _) as [w7|w7|msg w7] eqn:Hc.
      * apply complete_settled.
      * right. destruct (channels_returned _ _ _ _ _ Hc) as [H1 H2].
        split; [exact H1|]. eexists. exact H2.
      * apply fail_settled.
    + right. destruct (batches_returned _ _ _ _ _ _ Hb) as [H1 H2].
      split; [exact H1|]. eexists. exact H2.
    + apply fail_settled.
Qed.

(** A job cancelled while still pending is left alone by the worker: it
    stays in "error" with the cancellation text. *)
Lemma cancelled_while_pending (jid : string) :
  cancel_at = Some 0 ->
  let w := run_morlet_job world cancel_at (start jid) in
  cancel_answer w = Some true /\
  status (job w) = Error /\ error (job w) = Some CANCELLED_MSG /\
  result (job w) = None.
Proof.
  intros E. unfold run_morlet_job, read_cancelled, tick, start. rewrite E. simpl.
  repeat split.
Qed.

End WithResult.


(** *** A cancellation that comes too late

    Four epochs make a single batch.  The result is represented by a
    number. *)
Definition demo_world : World nat :=
  mkWorld (Done 4) (fun _ => Done tt) (Done tt) false (Done tt)
    ["Cz"; "Pz"]%string (fun _ => Done tt) 1 2.

(** C9.  The worker reads [job.cancelled] for the last time at the head of
    the only batch (its access number 3).  A [cancel_job] that arrives
    while this batch is computed, before the worker's next access, finds
    the job running, answers true and sets status "error" with the
    cancellation text; the worker then goes on and overwrites the status:
    the job ends "completed" with the result attached, the cancellation
    text still in [error]. *)
Theorem late_cancel_ends_completed :
  let w := run_morlet_job demo_world (Some 4) (start "5d41402a") in
  cancel_answer w = Some true /\
  cancelled (job w) = true /\
  status (job w) = Completed /\
  result (job w) = Some 1 /\
  error (job w) = Some CANCELLED_MSG.
Proof. vm_compute. repeat split. Qed.

(** The same request one access earlier is seen by the check at the head
    of the batch, and the job ends in "error" with the cancellation text
    and no result. *)
Example timely_cancel_ends_error :
  let w := run_morlet_job demo_world (Some 3) (start "5d41402a") in
  cancel_answer w = Some true /\
  status (job w) = Error /\
  result (job w) = None /\
  error (job w) = Some CANCELLED_MSG.
Proof. vm_compute. repeat split. Qed.

End TFRFacts.

(** * Further properties of the snapshot store *)

Module SessionMore.
Import SessionManager EEGService SessionFacts.

Section WithSignals.
Variables (Raw Epochs Params : Type).

Local Abbreviation Session := (EEGSession Raw Epochs Params).
Local Abbreviation Item := (StackItem Raw Epochs Params).

Lemma built_loaded_if_stacked (sid path : string) (calls : list (Call Raw Epochs Params)) :
  loaded_if_stacked Raw Epochs Params (run_calls calls (new_session sid path)).
Proof.
  apply run_calls_invariant; [apply perform_loaded_if_stacked|].
  apply new_session_loaded_if_stacked.
Qed.

Lemma removelast_last_entry {A : Type} (l : list A) (x : A) :
  last_entry l = Some x -> removelast l ++ [x] = l.
Proof.
  destruct (snoc_cases l) as [->|(rest & y & ->)]; [discriminate|].
  rewrite last_entry_snoc, removelast_last. now intros [= ->].
Qed.

Lemma last_entry_none {A : Type} (l : list A) : last_entry l = None -> l = [].
Proof.
  destruct (snoc_cases l) as [->|(rest & y & ->)]; [reflexivity|].
  rewrite last_entry_snoc. discriminate.
Qed.

(** X1.  On every session the program builds, [redo] with an empty redo
    stack returns false and leaves the session as it is; otherwise the
    session has data and [redo] returns true after pushing the current raw,
    last history entry and epochs on the undo stack, popping the newest redo
    snapshot, installing its raw and epochs together and appending the
    history record stored with it, if it stores one. *)
Theorem redo_contract (sid path : string) (calls : list (Call Raw Epochs Params)) :
  let s := run_calls calls (new_session sid path) in
  (_redo_stack s = [] -> redo s = (false, s)) /\
  (forall (rest : list Item) (item : Item),
      _redo_stack s = rest ++ [item] ->
      exists r : Raw,
        raw s = Some r /\
        redo s =
        (true,
         {| session_id := session_id s; file_path := file_path s;
            raw := Some (item_raw item); epochs := item_epochs item;
            processing_history :=
              match item_history item with
              | Some h => processing_history s ++ [h]
              | None => processing_history s
              end;
            _undo_stack :=
              _undo_stack s
              ++ [Item3 r (last_entry (processing_history s)) (epochs s)];
            _redo_stack := rest |})).
Proof.
  intros s. split; [apply redo_empty|].
  intros rest item Hu.
  destruct (raw s) as [r|] eqn:Hr.
  - exists r. split; [reflexivity|]. now apply redo_snoc.
  - destruct (built_loaded_if_stacked sid path calls Hr) as [_ Hnil].
    fold s in Hnil. rewrite Hnil in Hu. destruct rest; discriminate.
Qed.

(** X2.  On every session the program builds, an [undo] that has something
    to undo, followed by a [redo], brings back the raw, the epochs and the
    whole history, leaves the redo stack as it was, and leaves the undo
    stack with the same raw and epochs in every entry (only the history
    slot of the top entry is rewritten). *)
Theorem undo_then_redo (sid path : string) (calls : list (Call Raw Epochs Params)) :
  let s := run_calls calls (new_session sid path) in
  _undo_stack s <> [] ->
  fst (undo s) = true /\
  fst (redo (snd (undo s))) = true /\
  view (snd (redo (snd (undo s)))) = view s /\
  _redo_stack (snd (redo (snd (undo s)))) = _redo_stack s /\
  map (item_state Raw Epochs Params) (_undo_stack (snd (redo (snd (undo s))))) =
  map (item_state Raw Epochs Params) (_undo_stack s).
Proof.
  intros s Hne.
  destruct (snoc_cases (_undo_stack s)) as [E|(rest & item & Hu)]; [congruence|].
  destruct (raw s) as [r|] eqn:Hr.
  2:{ destruct (built_loaded_if_stacked sid path calls Hr) as [Hnil _].
      fold s in Hnil. congruence. }
  rewrite (undo_snoc _ _ _ s rest item r Hu Hr). simpl fst. simpl snd.
  split; [reflexivity|].
  set (s1 := mkSession _ _ _ _ _ _ _).
  rewrite (redo_snoc _ _ _ s1 (_redo_stack s) _ (item_raw item) eq_refl eq_refl).
  simpl. split; [reflexivity|].
  split; [|split; [reflexivity|]].
  - unfold view. simpl. rewrite Hr. f_equal.
    destruct (last_entry (processing_history s)) as [h|] eqn:Hh.
    + now apply removelast_last_entry.
    + apply last_entry_none in Hh. now rewrite Hh.
  - rewrite Hu, !map_app. reflexivity.
Qed.

(** X3.  Whatever calls a session receives, its undo and redo stacks
    together never hold more than [MAX_UNDO_STACK] = 10 snapshots. *)
Theorem stacks_share_budget (sid path : string) (calls : list (Call Raw Epochs Params)) :
  let s := run_calls calls (new_session sid path) in
  length (_undo_stack s) + length (_redo_stack s) <= MAX_UNDO_STACK.
Proof.
  intros s. apply run_calls_invariant; [apply perform_within_budget|].
  apply new_session_within_budget.
Qed.

(** X4.  [undo] succeeds exactly when [can_undo] says so and [redo] exactly
    when [can_redo] says so; on every session the program builds, a
    successful [undo] makes [can_redo] true and a successful [redo] makes
    [can_undo] true. *)
Theorem can_flags_agree (sid path : string) (calls : list (Call Raw Epochs Params)) :
  let s := run_calls calls (new_session sid path) in
  fst (undo s) = can_undo s /\
  fst (redo s) = can_redo s /\
  (fst (undo s) = true -> can_redo (snd (undo s)) = true) /\
  (fst (redo s) = true -> can_undo (snd (redo s)) = true).
Proof.
  intros s.
  pose proof (built_loaded_if_stacked sid path calls) as Inv. fold s in Inv.
  assert (Hpos : forall (A : Type) (l : list A) (x : A), (0 <? length (l ++ [x])) = true).
  { intros A l x. rewrite length_app. simpl. apply Nat.ltb_lt. lia. }
  unfold can_undo, can_redo.
  destruct (snoc_cases (_undo_stack s)) as [Eu|(urest & uitem & Hu)];
    destruct (snoc_cases (_redo_stack s)) as [Er|(rrest & ritem & Hr')].
  - rewrite (undo_empty _ _ _ s Eu), (redo_empty _ _ _ s Er), Eu, Er. simpl.
    repeat split; discriminate.
  - destruct (raw s) as [r|] eqn:Hr; [|destruct (Inv Hr) as [_ Hn]; rewrite Hn in Hr'; destruct rrest; discriminate].
    rewrite (undo_empty _ _ _ s Eu), (redo_snoc _ _ _ s rrest ritem r Hr' Hr), Eu, Hr'.
    simpl. repeat split; try discriminate; try apply Hpos. now rewrite Hpos.
  - destruct (raw s) as [r|] eqn:Hr; [|destruct (Inv Hr) as [Hn _]; rewrite Hn in Hu; destruct urest; discriminate].
    rewrite (undo_snoc _ _ _ s urest uitem r Hu Hr), (redo_empty _ _ _ s Er), Hu, Er.
    simpl. repeat split; try discriminate; try apply Hpos. now rewrite Hpos.
  - destruct (raw s) as [r|] eqn:Hr; [|destruct (Inv Hr) as [Hn _]; rewrite Hn in Hu; destruct urest; discriminate].
    rewrite (undo_snoc _ _ _ s urest uitem r Hu Hr),
            (redo_snoc _ _ _ s rrest ritem r Hr' Hr), Hu, Hr'.
    simpl. rewrite !Hpos. repeat split; intros; apply Hpos.
Qed.

Lemma apply_operation_stack (o : Operation Raw Epochs Params) (s : Session) (r : Raw) :
  raw s = Some r ->
  length (_undo_stack s) <= MAX_UNDO_STACK ->
  exists (s' : Session) (r' : Raw),
    apply_operation o s = Returned s' /\ raw s' = Some r' /\
    length (_undo_stack s') = Nat.min MAX_UNDO_STACK (length (_undo_stack s) + 1).
Proof.
  intros Hr Hlen. unfold apply_operation. rewrite Hr.
  eexists. eexists. split; [reflexivity|].
  rewrite (save_state_loaded _ _ _ _ _ _ s r Hr).
  split; [reflexivity|].
  cbn [add_history set_history set_epochs set_raw set_redo_stack set_undo_stack
       _undo_stack].
  rewrite length_app.
  destruct (MAX_UNDO_STACK <=? length (_undo_stack s)) eqn:E; unfold MAX_UNDO_STACK in *.
  - apply Nat.leb_le in E. destruct (_undo_stack s); cbn [tl length] in *; lia.
  - apply Nat.leb_gt in E. cbn [length]. lia.
Qed.

Lemma run_ops_stack (ops : list (Operation Raw Epochs Params)) :
  forall (s : Session) (r : Raw),
    raw s = Some r ->
    length (_undo_stack s) <= MAX_UNDO_STACK ->
    exists s' : Session,
      run_ops ops s = Returned s' /\
      length (_undo_stack s') =
      Nat.min MAX_UNDO_STACK (length (_undo_stack s) + length ops).
Proof.
  induction ops as [|o ops IH]; intros s r Hr Hlen.
  - exists s. split; [reflexivity|]. cbn [length]. lia.
  - destruct (apply_operation_stack o s r Hr Hlen) as (s1 & r1 & Hop & Hr1 & Hl1).
    destruct (IH s1 r1 Hr1) as (s' & Hrun & Hl'); [rewrite Hl1; lia|].
    exists s'. cbn [run_ops]. rewrite Hop. split; [exact Hrun|].
    rewrite Hl', Hl1. cbn [length]. unfold MAX_UNDO_STACK in *. lia.
Qed.

Lemma undo_pops (s : Session) :
  length (_undo_stack (snd (undo s))) = length (_undo_stack s) - 1.
Proof.
  destruct (snoc_cases (_undo_stack s)) as [E|(rest & item & E)].
  - rewrite (undo_empty _ _ _ s E). simpl. rewrite E. reflexivity.
  - unfold undo. rewrite E, pop_snoc. simpl. rewrite length_app. simpl. lia.
Qed.

Lemma undo_times_pops (n : nat) :
  forall s : Session,
    length (_undo_stack (undo_times n s)) = length (_undo_stack s) - n.
Proof.
  unfold undo_times. induction n as [|n IH]; intros s; simpl; [lia|].
  rewrite IH, undo_pops. lia.
Qed.

(** X24.  On a session with data whose undo stack is within its capacity,
    any sequence of mutating operations leaves the smaller of ten and the
    old number plus the number of operations on the undo stack.  So of ten
    or more operations exactly the last ten can be undone: the eleventh
    [undo] in a row returns false. *)
Theorem only_ten_undos
    (s : Session) (r : Raw) (ops : list (Operation Raw Epochs Params)) :
  raw s = Some r ->
  length (_undo_stack s) <= MAX_UNDO_STACK ->
  exists s' : Session,
    run_ops ops s = Returned s' /\
    length (_undo_stack s') =
    Nat.min MAX_UNDO_STACK (length (_undo_stack s) + length ops) /\
    (MAX_UNDO_STACK <= length ops ->
     fst (undo (undo_times MAX_UNDO_STACK s')) = false).
Proof.
  intros Hr Hlen.
  destruct (run_ops_stack ops s r Hr Hlen) as (s' & Hrun & Hl).
  exists s'. split; [exact Hrun|]. split; [exact Hl|].
  intros Hmany. apply f_equal with (f := fst) (x := undo _) (y := (false, undo_times MAX_UNDO_STACK s')).
  apply undo_empty.
  pose proof (undo_times_pops MAX_UNDO_STACK s') as Hp.
  rewrite Hl in Hp. unfold MAX_UNDO_STACK in *.
  destruct (_undo_stack (undo_times 10 s')); [reflexivity|cbn [length] in Hp; lia].
Qed.

End WithSignals.

(** *** The properties at concrete sessions *)

(** A session that was loaded, filtered and resampled, with the second
    operation undone. *)
Definition demo_calls : list (Call nat nat nat) :=
  [CallLoad 100 0 "2024-01-01T10:00:00";
   CallSaveState "filter" 1 "2024-01-01T10:01:00";
   CallProcess (fun r e => (r, e));
   CallAddHistory "filter" 1 "2024-01-01T10:01:05";
   CallSaveState "resample" 50 "2024-01-01T10:02:00";
   CallProcess (fun _ e => (50, e));
   CallAddHistory "resample" 50 "2024-01-01T10:02:03";
   CallUndo].

Definition demo_session : EEGSession nat nat nat :=
  run_calls demo_calls (new_session "3f2a9c1e" "/data/sub01.fif").

Lemma redo_contract_witness :
  redo (new_session "3f2a9c1e" "/data/sub01.fif" : EEGSession nat nat nat)
  = (false, new_session "3f2a9c1e" "/data/sub01.fif") /\
  exists r : nat,
    raw demo_session = Some r /\
    fst (redo demo_session) = true.
Proof.
  split.
  - apply (redo_contract nat nat nat "3f2a9c1e" "/data/sub01.fif" []). reflexivity.
  - unfold demo_session.
    assert (Hs : _redo_stack (run_calls demo_calls
                                (@new_session nat nat nat "3f2a9c1e" "/data/sub01.fif")) =
                 [] ++ [Item3 50 (Some (mkHistory "resample" 50 "2024-01-01T10:02:03")) None])
      by (vm_compute; reflexivity).
    destruct (redo_contract nat nat nat "3f2a9c1e" "/data/sub01.fif" demo_calls) as [_ H].
    destruct (H [] (Item3 50 (Some (mkHistory "resample" 50 "2024-01-01T10:02:03")) None) Hs)
      as (r & Hr & Hredo).
    exists r. split; [exact Hr|].
    rewrite Hredo. reflexivity.
Defined.

Lemma undo_then_redo_witness :
  _undo_stack demo_session <> [] /\
  fst (undo demo_session) = true /\
  fst (redo (snd (undo demo_session))) = true /\
  view (snd (redo (snd (undo demo_session)))) = view demo_session /\
  _redo_stack (snd (redo (snd (undo demo_session)))) = _redo_stack demo_session /\
  map (item_state nat nat nat) (_undo_stack (snd (redo (snd (undo demo_session))))) =
  map (item_state nat nat nat) (_undo_stack demo_session).
Proof.
  unfold demo_session.
  assert (H : _undo_stack (run_calls demo_calls
                             (@new_session nat nat nat "3f2a9c1e" "/data/sub01.fif")) <> [])
    by (vm_compute; discriminate).
  split; [exact H|].
  exact (undo_then_redo nat nat nat "3f2a9c1e" "/data/sub01.fif" demo_calls H).
Defined.

Lemma can_flags_agree_witness :
  fst (undo demo_session) = true /\
  can_redo (snd (undo demo_session)) = true /\
  fst (redo demo_session) = true /\
  can_undo (snd (redo demo_session)) = true.
Proof.
  unfold demo_session.
  destruct (can_flags_agree nat nat nat "3f2a9c1e" "/data/sub01.fif" demo_calls)
    as (_ & _ & Hu & Hr).
  assert (H1 : fst (undo (run_calls demo_calls
                            (@new_session nat nat nat "3f2a9c1e" "/data/sub01.fif"))) = true)
    by (vm_compute; reflexivity).
  assert (H2 : fst (redo (run_calls demo_calls
                            (@new_session nat nat nat "3f2a9c1e" "/data/sub01.fif"))) = true)
    by (vm_compute; reflexivity).
  split; [exact H1|]. split; [exact (Hu H1)|]. split; [exact H2|exact (Hr H2)].
Defined.

Lemma only_ten_undos_witness :
  raw demo_loaded = Some 100 /\
  length (_undo_stack demo_loaded) <= MAX_UNDO_STACK /\
  MAX_UNDO_STACK <= length (repeat demo_filter 12) /\
  exists s' : EEGSession nat nat nat,
    run_ops (repeat demo_filter 12) demo_loaded = Returned s' /\
    length (_undo_stack s') = 10 /\
    fst (undo (undo_times MAX_UNDO_STACK s')) = false.
Proof.
  assert (Hr : raw demo_loaded = Some 100) by (vm_compute; reflexivity).
  assert (Hl : length (_undo_stack demo_loaded) <= MAX_UNDO_STACK)
    by (vm_compute; lia).
  assert (Hn : MAX_UNDO_STACK <= length (repeat demo_filter 12))
    by (vm_compute; lia).
  split; [exact Hr|]. split; [exact Hl|]. split; [exact Hn|].
  destruct (only_ten_undos nat nat nat demo_loaded 100 (repeat demo_filter 12) Hr Hl)
    as (s' & Hrun & Hlen & Hlast).
  exists s'. split; [exact Hrun|]. split; [rewrite Hlen; vm_compute; reflexivity|].
  exact (Hlast Hn).
Defined.

End SessionMore.

(** * Properties of bad-channel marking and re-referencing *)

Module EEGServiceOpsFacts.
Import SessionManager EEGService EEGServiceOps SessionFacts.

Lemma contains_In (l : list string) (x : string) : contains l x = true <-> In x l.
Proof.
  unfold contains. rewrite existsb_exists. split.
  - intros (y & Hy & E). apply String.eqb_eq in E. now subst.
  - intros H. exists x. split; [exact H|apply String.eqb_refl].
Qed.

Lemma contains_not_In (l : list string) (x : string) : contains l x = false <-> ~ In x l.
Proof.
  rewrite <- contains_In. destruct (contains l x); split; congruence.
Qed.

Lemma remove_first_In (x y : string) (l : list string) :
  In y (remove_first x l) -> In y l.
Proof.
  induction l as [|z l IH]; simpl; [tauto|].
  destruct (String.eqb x z); simpl; tauto.
Qed.

Lemma remove_first_other (x y : string) (l : list string) :
  y <> x -> In y l -> In y (remove_first x l).
Proof.
  intros Hne. induction l as [|z l IH]; simpl; [tauto|].
  destruct (String.eqb x z) eqn:E; simpl.
  - apply String.eqb_eq in E. subst z. intros [H|H]; [congruence|exact H].
  - tauto.
Qed.

Lemma remove_first_NoDup (x : string) (l : list string) :
  NoDup l -> NoDup (remove_first x l) /\ ~ In x (remove_first x l).
Proof.
  induction 1 as [|z l Hz Hl [IH1 IH2]]; simpl; [split; [constructor|tauto]|].
  destruct (String.eqb x z) eqn:E.
  - apply String.eqb_eq in E. subst z. split; assumption.
  - apply String.eqb_neq in E. split.
    + constructor; [|exact IH1]. intros Hin. apply Hz. eapply remove_first_In, Hin.
    + simpl. intros [Hin|Hin]; [congruence|tauto].
Qed.

Lemma remove_first_snoc (x : string) (l : list string) :
  ~ In x l -> remove_first x (l ++ [x]) = l.
Proof.
  induction l as [|z l IH]; simpl; intros H.
  - now rewrite String.eqb_refl.
  - destruct (String.eqb x z) eqn:E.
    + apply String.eqb_eq in E. subst z. tauto.
    + rewrite IH; [reflexivity|tauto].
Qed.

Section WithSignals.
Variables (Signal Epochs Params : Type).
Variable set_eeg_reference : RefChannels -> Recording Signal -> Recording Signal.
Variable bad_channel_params : string -> bool -> Params.
Variable rereference_params : string -> option (list string) -> Params.

Local Abbreviation Session := (EEGSession (Recording Signal) Epochs Params).
Local Abbreviation set_bad_channel := (set_bad_channel bad_channel_params).
Local Abbreviation apply_rereference :=
  (apply_rereference set_eeg_reference rereference_params).




(** X8.  When neither A1, M1, TP9 or neither A2, M2, TP10 is a channel,
    [apply_rereference] with method "a1a2" raises after [save_state] has
    run: raw, epochs and history are as before, but the redo stack is
    empty and the undo stack has a new snapshot on top.  An [undo] then
    succeeds, restores the same raw and epochs, and removes the last
    history record, which belongs to an operation that is still applied. *)
Theorem failed_rereference_leaves_snapshot
    (s : Session) (r : Recording Signal) (custom_ref : option (list string))
    (t1 t2 : string) :
  raw s = Some r ->
  first_present A1_NAMES (ch_names r) = None \/
  first_present A2_NAMES (ch_names r) = None ->
  exists s' : Session,
    apply_rereference "a1a2" custom_ref t1 t2 s = Raised NO_REFERENCE s' /\
    view s' = view s /\
    _redo_stack s' = [] /\
    last_entry (_undo_stack s') =
    Some (Item3 r (Some (mkHistory "rereference"
                           (rereference_params "a1a2" custom_ref) t1)) (epochs s)) /\
    fst (undo s') = true /\
    raw (snd (undo s')) = Some r /\
    epochs (snd (undo s')) = epochs s /\
    processing_history (snd (undo s')) = removelast (processing_history s).
Proof.
  intros Hr Hmiss. unfold EEGServiceOps.apply_rereference. rewrite Hr. simpl String.eqb.
  cbv iota zeta.
  set (s1 := save_state _ _ _ _).
  assert (Hs1 : s1 = set_redo_stack []
                  (set_undo_stack
                     ((if MAX_UNDO_STACK <=? length (_undo_stack s)
                       then tl (_undo_stack s) else _undo_stack s)
                      ++ [Item3 r (Some (mkHistory "rereference"
                                          (rereference_params "a1a2" custom_ref) t1))
                            (epochs s)]) s)).
  { subst s1. apply save_state_loaded. exact Hr. }
  exists s1. split.
  { destruct Hmiss as [-> | ->]; [reflexivity|].
    destruct (first_present A1_NAMES (ch_names r)); reflexivity. }
  clearbody s1. subst s1.
  erewrite (undo_snoc _ _ _ _ _ _ r); [|reflexivity|exact Hr].
  unfold view. simpl. repeat split. apply last_entry_snoc.
Qed.

(** X9.  A re-reference request with method "custom" and no channels (none
    given, or an empty list) returns without changing the raw object or the
    epochs, yet it takes a snapshot, empties the redo stack and adds a
    "rereference" record to the history. *)
Theorem empty_custom_rereference
    (s : Session) (r : Recording Signal) (custom_ref : option (list string))
    (t1 t2 : string) :
  raw s = Some r ->
  custom_ref = None \/ custom_ref = Some [] ->
  exists s' : Session,
    apply_rereference "custom" custom_ref t1 t2 s = Returned s' /\
    raw s' = Some r /\ epochs s' = epochs s /\
    _redo_stack s' = [] /\
    last_entry (_undo_stack s') =
    Some (Item3 r (Some (mkHistory "rereference"
                           (rereference_params "custom" custom_ref) t1)) (epochs s)) /\
    processing_history s' =
    processing_history s
    ++ [mkHistory "rereference" (rereference_params "custom" custom_ref) t2].
Proof.
  intros Hr Hnone. unfold EEGServiceOps.apply_rereference. rewrite Hr. simpl String.eqb.
  cbv iota zeta.
  rewrite (save_state_loaded _ _ _ _ _ _ s r Hr).
  destruct Hnone as [-> | ->]; (eexists; split; [reflexivity|]); simpl;
    repeat split; apply last_entry_snoc.
Qed.

End WithSignals.
(** *** The properties at a concrete recording

    Samples are represented by a number, parameters by a list of
    strings. *)

Definition demo_recording : Recording nat :=
  mkRecording ["Fp1"; "Fp2"; "Cz"; "TP9"]%string ["Fp2"]%string 100.

Definition demo_bad_channel_params (name : string) (is_bad : bool) : list string :=
  [name; if is_bad then "True" else "False"]%string.

Definition demo_rereference_params (method : string) (custom_ref : option (list string))
  : list string :=
  method :: match custom_ref with Some l => l | None => [] end.

Definition demo_set_eeg_reference (_ : RefChannels) (r : Recording nat) : Recording nat :=
  mkRecording (ch_names r) (bads r) (S (signal r)).

Definition demo_recorded : EEGSession (Recording nat) nat (list string) :=
  attach_raw demo_recording ["/data/sub01.fif"%string] "2024-01-01T10:00:00"
    (new_session "3f2a9c1e" "/data/sub01.fif").

Definition demo_crop : Operation (Recording nat) nat (list string) :=
  mkOperation "crop" ["0"; "60"]%string "2024-01-01T10:01:00"
    (fun r e => (mkRecording (ch_names r) (bads r) 60, e))
    ["0"; "60"]%string "2024-01-01T10:01:02".




Lemma failed_rereference_leaves_snapshot_witness :
  raw demo_recorded = Some demo_recording /\
  first_present A2_NAMES (ch_names demo_recording) = None /\
  exists s' : EEGSession (Recording nat) nat (list string),
    apply_rereference demo_set_eeg_reference demo_rereference_params "a1a2" None
      "2024-01-01T10:05:00" "2024-01-01T10:05:01" demo_recorded
    = Raised NO_REFERENCE s' /\
    view s' = view demo_recorded /\
    fst (undo s') = true /\
    processing_history (snd (undo s')) = removelast (processing_history demo_recorded).
Proof.
  assert (Hr : raw demo_recorded = Some demo_recording) by (vm_compute; reflexivity).
  assert (Hn : first_present A2_NAMES (ch_names demo_recording) = None)
    by (vm_compute; reflexivity).
  split; [exact Hr|]. split; [exact Hn|].
  destruct (failed_rereference_leaves_snapshot nat nat (list string)
              demo_set_eeg_reference demo_rereference_params demo_recorded demo_recording
              None "2024-01-01T10:05:00" "2024-01-01T10:05:01" Hr (or_intror Hn))
    as (s' & H1 & H2 & _ & _ & H5 & _ & _ & H8).
  exists s'. split; [exact H1|]. split; [exact H2|]. split; [exact H5|exact H8].
Defined.

Lemma empty_custom_rereference_witness :
  raw demo_recorded = Some demo_recording /\
  exists s' : EEGSession (Recording nat) nat (list string),
    apply_rereference demo_set_eeg_reference demo_rereference_params "custom" (Some [])
      "2024-01-01T10:05:00" "2024-01-01T10:05:01" demo_recorded
    = Returned s' /\
    raw s' = Some demo_recording /\
    _redo_stack s' = [] /\
    processing_history s' =
    processing_history demo_recorded
    ++ [mkHistory "rereference" (demo_rereference_params "custom" (Some []))
          "2024-01-01T10:05:01"].
Proof.
  assert (Hr : raw demo_recorded = Some demo_recording) by (vm_compute; reflexivity).
  split; [exact Hr|].
  destruct (empty_custom_rereference nat nat (list string)
              demo_set_eeg_reference demo_rereference_params demo_recorded demo_recording
              (Some []) "2024-01-01T10:05:00" "2024-01-01T10:05:01" Hr
              (or_intror eq_refl))
    as (s' & H1 & H2 & _ & H4 & _ & H6).
  exists s'. split; [exact H1|]. split; [exact H2|]. split; [exact H4|exact H6].
Defined.

End EEGServiceOpsFacts.

(** * Properties of the session registry *)

Module SessionRegistryFacts.
Import SessionManager SessionRegistry.

Section WithSignals.
Variables (Raw Epochs Params : Type).

Local Abbreviation Slot := (Slot Raw Epochs Params).
Local Abbreviation Registry := (Registry Raw Epochs Params).

(** The keys of a dictionary are distinct. *)
Definition distinct_keys (d : Registry) : Prop := NoDup (map fst d).

Lemma lookup_assign_same (k : string) (v : Slot) (d : Registry) :
  lookup k (assign_key k v d) = Some v.
Proof.
  induction d as [|[k' w] d IH]; simpl.
  - now rewrite String.eqb_refl.
  - destruct (String.eqb k k') eqn:E; simpl; rewrite E; [reflexivity|exact IH].
Qed.

Lemma lookup_assign_other (k k' : string) (v : Slot) (d : Registry) :
  k' <> k -> lookup k' (assign_key k v d) = lookup k' d.
Proof.
  intros Hne. induction d as [|[k0 w] d IH]; simpl.
  - apply String.eqb_neq in Hne. now rewrite Hne.
  - destruct (String.eqb k k0) eqn:E; simpl.
    + apply String.eqb_eq in E. subst k0.
      apply String.eqb_neq in Hne. now rewrite Hne.
    + destruct (String.eqb k' k0); [reflexivity|exact IH].
Qed.

Lemma lookup_none_keys (k : string) (d : Registry) :
  lookup k d = None <-> ~ In k (map fst d).
Proof.
  induction d as [|[k0 w] d IH]; simpl; [tauto|].
  destruct (String.eqb k k0) eqn:E.
  - apply String.eqb_eq in E. subst. split; [discriminate|tauto].
  - apply String.eqb_neq in E. rewrite IH. split; [intros H [H'|H']; congruence|tauto].
Qed.

Lemma assign_key_keys (k : string) (v : Slot) (d : Registry) :
  map fst (assign_key k v d) =
  match lookup k d with Some _ => map fst d | None => map fst d ++ [k] end.
Proof.
  induction d as [|[k0 w] d IH]; simpl; [reflexivity|].
  destruct (String.eqb k k0) eqn:E; simpl; [reflexivity|].
  rewrite IH. now destruct (lookup k d).
Qed.

Lemma assign_key_distinct (k : string) (v : Slot) (d : Registry) :
  distinct_keys d -> distinct_keys (assign_key k v d).
Proof.
  unfold distinct_keys. intros H. rewrite assign_key_keys.
  destruct (lookup k d) eqn:E; [exact H|].
  apply lookup_none_keys in E.
  apply NoDup_app; [exact H|constructor; [tauto|constructor]|].
  intros x Hx [<-|[]]. exact (E Hx).
Qed.

Lemma delete_key_keys_incl (k x : string) (d : Registry) :
  In x (map fst (delete_key k d)) -> In x (map fst d).
Proof.
  induction d as [|[k0 w] d IH]; simpl; [tauto|].
  destruct (String.eqb k k0); simpl; tauto.
Qed.

Lemma delete_key_distinct (k : string) (d : Registry) :
  distinct_keys d -> distinct_keys (delete_key k d).
Proof.
  unfold distinct_keys. induction d as [|[k0 w] d IH]; simpl; intros H; [exact H|].
  inversion H as [|? ? Hk Hd]; subst.
  destruct (String.eqb k k0); simpl; [exact Hd|].
  constructor; [|now apply IH]. intros Hin. apply Hk. eapply delete_key_keys_incl, Hin.
Qed.

Lemma lookup_delete_same (k : string) (d : Registry) :
  distinct_keys d -> lookup k (delete_key k d) = None.
Proof.
  unfold distinct_keys. induction d as [|[k0 w] d IH]; simpl; intros H; [reflexivity|].
  inversion H as [|? ? Hk Hd]; subst.
  destruct (String.eqb k k0) eqn:E; simpl.
  - apply String.eqb_eq in E. subst k0. now apply lookup_none_keys.
  - rewrite E. now apply IH.
Qed.

Lemma lookup_delete_other (k k' : string) (d : Registry) :
  k' <> k -> lookup k' (delete_key k d) = lookup k' d.
Proof.
  intros Hne. induction d as [|[k0 w] d IH]; simpl; [reflexivity|].
  destruct (String.eqb k k0) eqn:E; simpl.
  - apply String.eqb_eq in E. subst k0.
    apply String.eqb_neq in Hne. now rewrite Hne.
  - destruct (String.eqb k' k0); [reflexivity|exact IH].
Qed.

Lemma remove_session_distinct (k : string) (d : Registry) :
  distinct_keys d -> distinct_keys (remove_session k d).
Proof.
  intros H. unfold remove_session.
  destruct (lookup k d); [now apply delete_key_distinct|exact H].
Qed.

Lemma lookup_remove_session (k k' : string) (d : Registry) :
  distinct_keys d ->
  lookup k' (remove_session k d) = if String.eqb k' k then None else lookup k' d.
Proof.
  intros H. unfold remove_session.
  destruct (String.eqb k' k) eqn:E.
  - apply String.eqb_eq in E. subst k'.
    destruct (lookup k d) eqn:L; [now apply lookup_delete_same|exact L].
  - apply String.eqb_neq in E.
    destruct (lookup k d); [now apply lookup_delete_other|reflexivity].
Qed.

Lemma lookup_remove_all (keys : list string) :
  forall (k' : string) (d : Registry),
    distinct_keys d ->
    distinct_keys (fold_left (fun acc sid => remove_session sid acc) keys d) /\
    lookup k' (fold_left (fun acc sid => remove_session sid acc) keys d) =
    if existsb (String.eqb k') keys then None else lookup k' d.
Proof.
  induction keys as [|k keys IH]; intros k' d H; simpl; [split; [exact H|reflexivity]|].
  destruct (IH k' (remove_session k d) (remove_session_distinct k d H)) as [H1 H2].
  split; [exact H1|]. rewrite H2, (lookup_remove_session k k' d H).
  destruct (String.eqb k' k); simpl; [|reflexivity].
  now destruct (existsb (String.eqb k') keys).
Qed.

Lemma lookup_in (k : string) (v : Slot) (d : Registry) :
  distinct_keys d -> (lookup k d = Some v <-> In (k, v) d).
Proof.
  unfold distinct_keys. induction d as [|[k0 w] d IH]; simpl; intros H.
  - split; [discriminate|tauto].
  - inversion H as [|? ? Hk Hd]; subst.
    destruct (String.eqb k k0) eqn:E.
    + apply String.eqb_eq in E. subst k0. split.
      * intros [= ->]. now left.
      * intros [[= ->]|Hin]; [reflexivity|].
        exfalso. apply Hk. apply (in_map fst) in Hin. exact Hin.
    + apply String.eqb_neq in E. rewrite (IH Hd). split; [tauto|].
      intros [[= -> ->]|Hin]; [congruence|exact Hin].
Qed.

(** X10.  [create_session] returns the identifier it was given; a
    [get_session] right after finds a session without data, history or
    snapshots, stamped with the time of the lookup; the sessions under other
    identifiers are as before (one already registered under the same
    identifier is replaced), and the keys stay distinct. *)
Theorem create_then_get (sid path : string) (now t : Z) (d : Registry) :
  let c := create_session sid path now d in
  fst c = sid /\
  fst (get_session sid t (snd c)) = Some (mkSlot (new_session sid path) now t) /\
  (forall other, other <> sid -> lookup other (snd c) = lookup other d) /\
  (distinct_keys d -> distinct_keys (snd c)).
Proof.
  intros c. subst c. unfold create_session, get_session. simpl.
  rewrite lookup_assign_same. simpl.
  repeat split.
  - intros other Hne. now apply lookup_assign_other.
  - apply assign_key_distinct.
Qed.

(** X11.  [get_session] of an identifier that is not registered returns
    nothing and leaves the registry as it is; otherwise it returns the
    session with its last access set to now, stores just that, and leaves
    every other session alone. *)
Theorem get_session_touches (sid : string) (now : Z) (d : Registry) :
  (lookup sid d = None -> get_session sid now d = (None, d)) /\
  (forall slot, lookup sid d = Some slot ->
     fst (get_session sid now d) = Some (mkSlot (session slot) (created_at slot) now) /\
     lookup sid (snd (get_session sid now d)) =
     Some (mkSlot (session slot) (created_at slot) now) /\
     (forall other, other <> sid ->
        lookup other (snd (get_session sid now d)) = lookup other d)).
Proof.
  unfold get_session. split.
  - intros ->. reflexivity.
  - intros slot ->. simpl. split; [reflexivity|].
    split; [apply lookup_assign_same|].
    intros other Hne. now apply lookup_assign_other.
Qed.

(** X12.  After [remove_session] the identifier is no longer found and
    every other session is as before; removing an identifier that is not
    registered changes nothing. *)
Theorem remove_session_forgets (sid : string) (d : Registry) :
  distinct_keys d ->
  lookup sid (remove_session sid d) = None /\
  (forall other, other <> sid -> lookup other (remove_session sid d) = lookup other d) /\
  (lookup sid d = None -> remove_session sid d = d).
Proof.
  intros H. split; [|split].
  - rewrite (lookup_remove_session sid sid d H). now rewrite String.eqb_refl.
  - intros other Hne. rewrite (lookup_remove_session sid other d H).
    apply String.eqb_neq in Hne. now rewrite Hne.
  - intros E. unfold remove_session. now rewrite E.
Qed.

(** X13.  [cleanup_expired] removes exactly the sessions last accessed more
    than two hours before now: such a session is no longer found, and every
    other session is found unchanged. *)
Theorem cleanup_removes_expired (now : Z) (d : Registry) (sid : string) :
  distinct_keys d ->
  lookup sid (cleanup_expired now d) =
  match lookup sid d with
  | Some slot => if (7200 <? now - last_accessed slot)%Z then None else Some slot
  | None => None
  end.
Proof.
  intros H. unfold cleanup_expired.
  destruct (lookup_remove_all
              (map fst (filter (fun kv => is_expired now (snd kv)) d)) sid d H) as [_ ->].
  destruct (existsb _ _) eqn:Ex.
  - apply existsb_exists in Ex as (k & Hk & E). apply String.eqb_eq in E. subst k.
    apply in_map_iff in Hk as ([k v] & Hfst & Hin). simpl in Hfst. subst k.
    apply filter_In in Hin as [Hin Hexp]. simpl in Hexp.
    apply (lookup_in sid v d H) in Hin. rewrite Hin.
    unfold is_expired, SESSION_TIMEOUT in Hexp. now rewrite Hexp.
  - destruct (lookup sid d) as [slot|] eqn:L; [|reflexivity].
    destruct (7200 <? now - last_accessed slot)%Z eqn:Hexp; [|reflexivity].
    exfalso. apply Bool.not_true_iff_false in Ex. apply Ex.
    apply existsb_exists. exists sid. split; [|apply String.eqb_refl].
    apply in_map_iff. exists (sid, slot). split; [reflexivity|].
    apply filter_In. split; [now apply (lookup_in sid slot d H)|exact Hexp].
Qed.

(** X14.  A session looked up at time [t] survives every clean-up that
    runs no later than two hours after [t]. *)
Theorem touched_session_survives (sid : string) (t now : Z) (d : Registry) (slot : Slot) :
  distinct_keys d ->
  lookup sid d = Some slot ->
  (now - t <= 7200)%Z ->
  lookup sid (cleanup_expired now (snd (get_session sid t d))) =
  Some (mkSlot (session slot) (created_at slot) t).
Proof.
  intros H L Hle.
  assert (Hd : distinct_keys (snd (get_session sid t d))).
  { unfold get_session. rewrite L. simpl. now apply assign_key_distinct. }
  rewrite (cleanup_removes_expired now _ sid Hd).
  unfold get_session. rewrite L. simpl. rewrite lookup_assign_same. simpl.
  destruct (7200 <? now - t)%Z eqn:E; [|reflexivity].
  apply Z.ltb_lt in E. lia.
Qed.

(** X15.  The shutdown handler leaves no session registered. *)
Theorem shutdown_removes_all (d : Registry) : shutdown_event d = [].
Proof.
  unfold shutdown_event, get_all_sessions, copy.
  induction d as [|[k v] d IH]; [reflexivity|].
  assert (Hhead : remove_session k ((k, v) :: d) = d).
  { unfold remove_session. cbn [lookup]. rewrite String.eqb_refl.
    cbn [delete_key]. now rewrite String.eqb_refl. }
  simpl map. simpl fold_left. rewrite Hhead. exact IH.
Qed.

End WithSignals.
(** *** The properties at a concrete registry

    Two sessions, created at second 0 and at second 3600. *)

Definition demo_registry : Registry nat nat nat :=
  snd (create_session "b7d0e2aa" "/data/sub02.fif" 3600
         (snd (create_session "3f2a9c1e" "/data/sub01.fif" 0 []))).

Lemma demo_registry_distinct : distinct_keys nat nat nat demo_registry.
Proof.
  unfold demo_registry, create_session. cbn [snd].
  apply assign_key_distinct, assign_key_distinct. constructor.
Qed.

Lemma create_then_get_witness :
  distinct_keys nat nat nat demo_registry /\
  distinct_keys nat nat nat
    (snd (create_session "c41f77b0" "/data/sub03.fif" 4000 demo_registry)) /\
  fst (get_session "c41f77b0" 4100
         (snd (create_session "c41f77b0" "/data/sub03.fif" 4000 demo_registry)))
  = Some (mkSlot (new_session "c41f77b0" "/data/sub03.fif") 4000 4100).
Proof.
  destruct (create_then_get nat nat nat "c41f77b0" "/data/sub03.fif" 4000 4100 demo_registry)
    as (_ & Hget & _ & Hd).
  split; [exact demo_registry_distinct|].
  split; [exact (Hd demo_registry_distinct)|exact Hget].
Defined.

Lemma get_session_touches_witness :
  lookup "0badc0de" demo_registry = None /\
  get_session "0badc0de" 5000 demo_registry = (None, demo_registry) /\
  lookup "3f2a9c1e" demo_registry
  = Some (mkSlot (new_session "3f2a9c1e" "/data/sub01.fif") 0 0) /\
  fst (get_session "3f2a9c1e" 5000 demo_registry)
  = Some (mkSlot (new_session "3f2a9c1e" "/data/sub01.fif") 0 5000).
Proof.
  assert (Hn : lookup "0badc0de" demo_registry = None) by (vm_compute; reflexivity).
  assert (Hs : lookup "3f2a9c1e" demo_registry
               = Some (mkSlot (new_session "3f2a9c1e" "/data/sub01.fif") 0 0))
    by (vm_compute; reflexivity).
  split; [exact Hn|].
  split; [exact (proj1 (get_session_touches nat nat nat "0badc0de" 5000 demo_registry) Hn)|].
  split; [exact Hs|].
  exact (proj1 (proj2 (get_session_touches nat nat nat "3f2a9c1e" 5000 demo_registry)
                  _ Hs)).
Defined.

Lemma remove_session_forgets_witness :
  distinct_keys nat nat nat demo_registry /\
  lookup "3f2a9c1e" (remove_session "3f2a9c1e" demo_registry) = None /\
  lookup "b7d0e2aa" (remove_session "3f2a9c1e" demo_registry)
  = lookup "b7d0e2aa" demo_registry.
Proof.
  destruct (remove_session_forgets nat nat nat "3f2a9c1e" demo_registry
              demo_registry_distinct) as (H1 & H2 & _).
  split; [exact demo_registry_distinct|]. split; [exact H1|].
  apply H2. discriminate.
Defined.

Lemma cleanup_removes_expired_witness :
  distinct_keys nat nat nat demo_registry /\
  lookup "3f2a9c1e" (cleanup_expired 7201 demo_registry) = None /\
  lookup "b7d0e2aa" (cleanup_expired 7201 demo_registry)
  = Some (mkSlot (new_session "b7d0e2aa" "/data/sub02.fif") 3600 3600).
Proof.
  split; [exact demo_registry_distinct|]. split.
  - rewrite (cleanup_removes_expired nat nat nat 7201 demo_registry "3f2a9c1e"
               demo_registry_distinct).
    vm_compute. reflexivity.
  - rewrite (cleanup_removes_expired nat nat nat 7201 demo_registry "b7d0e2aa"
               demo_registry_distinct).
    vm_compute. reflexivity.
Defined.

Lemma touched_session_survives_witness :
  distinct_keys nat nat nat demo_registry /\
  lookup "3f2a9c1e" demo_registry
  = Some (mkSlot (new_session "3f2a9c1e" "/data/sub01.fif") 0 0) /\
  (12000 - 5000 <= 7200)%Z /\
  lookup "3f2a9c1e"
    (cleanup_expired 12000 (snd (get_session "3f2a9c1e" 5000 demo_registry)))
  = Some (mkSlot (new_session "3f2a9c1e" "/data/sub01.fif") 0 5000).
Proof.
  assert (Hs : lookup "3f2a9c1e" demo_registry
               = Some (mkSlot (new_session "3f2a9c1e" "/data/sub01.fif") 0 0))
    by (vm_compute; reflexivity).
  assert (Ht : (12000 - 5000 <= 7200)%Z) by lia.
  split; [exact demo_registry_distinct|]. split; [exact Hs|]. split; [exact Ht|].
  exact (touched_session_survives nat nat nat "3f2a9c1e" 5000 12000 demo_registry _
           demo_registry_distinct Hs Ht).
Defined.

End SessionRegistryFacts.

(** * Properties of the batch service calls *)

Module BatchServiceFacts.
Import BatchProcessing BatchService BatchFacts.

Lemma tally_app (st : FileState) (a b : list BatchFileResult) :
  tally st (a ++ b) = tally st a + tally st b.
Proof. unfold tally. now rewrite filter_app, length_app. Qed.

Lemma tally_waiting (path_name : string -> string) (paths : list string) :
  tally success (map (waiting path_name) paths) = 0 /\
  tally failed_file (map (waiting path_name) paths) = 0 /\
  tally pending (map (waiting path_name) paths) = length paths.
Proof.
  unfold tally. induction paths as [|p paths (IH1 & IH2 & IH3)]; simpl; [repeat split|].
  rewrite IH3. repeat split; assumption.
Qed.

Lemma tally_settled_pending
    (path_name : string -> string) (request : BatchProcessingRequest)
    (world : nat -> FileWorld) (paths : list string) (i0 : nat) :
  tally pending (settle_from path_name request world i0 paths) = 0.
Proof.
  revert i0. induction paths as [|p paths IH]; intros i0; [reflexivity|].
  specialize (IH (S i0)). unfold tally in *. simpl.
  unfold settled at 1. destruct (verdict request (world i0)); simpl; exact IH.
Qed.

(** X16.  At the end of every run of [_process_job] on a new job, cancelled
    or not, the counters agree with the result list: [total_files] is its
    length, [completed_files] the number of "success" entries,
    [failed_files] the number of "failed" entries, and together with the
    "pending" entries they add up to [total_files]. *)
Theorem counters_match_results
    (path_name : string -> string) (request : BatchProcessingRequest)
    (world : nat -> FileWorld) (cancel_at : option nat) (jid : string) :
  let r := _process_job path_name request world cancel_at
             (create_job path_name request jid) in
  total_files (job r) = length (results (job r)) /\
  completed_files (job r) = tally success (results (job r)) /\
  failed_files (job r) = tally failed_file (results (job r)) /\
  completed_files (job r) + failed_files (job r) + tally pending (results (job r))
  = total_files (job r).
Proof.
  intros r.
  destruct (process_job_outcome path_name request world cancel_at jid)
    as (pre & rest & Hsplit & Htot & Hres & Hok & Hbad & _).
  fold r in Htot, Hres, Hok, Hbad.
  destruct (tally_waiting path_name rest) as (W1 & W2 & W3).
  pose proof (settle_from_tally path_name request world pre 0) as Hsum.
  pose proof (tally_settled_pending path_name request world pre 0) as Hpend.
  rewrite Hres, !tally_app, W1, W2, W3, Hpend, Hok, Hbad, Htot.
  rewrite length_app, length_map, settle_from_length, <- Hsplit, length_app.
  repeat split; lia.
Qed.

(** X17.  [cancel_job] is refused on a job that has come to rest: after a
    run that saw no cancellation it returns false and changes nothing, and
    whatever a first [cancel_job] did, a second one returns false, changes
    nothing and notifies nobody. *)
Theorem cancel_refused_at_rest
    (path_name : string -> string) (request : BatchProcessingRequest)
    (world : nat -> FileWorld) (jid : string) (r : Run) :
  (let done := _process_job path_name request world None
                 (create_job path_name request jid) in
   cancel_job_at_rest done = (false, done)) /\
  cancel_job_at_rest (snd (cancel_job_at_rest r)) = (false, snd (cancel_job_at_rest r)).
Proof.
  split.
  - cbv zeta.
    destruct (process_job_outcome path_name request world None jid)
      as (pre & rest & _ & _ & _ & _ & _ & _ & Hend).
    destruct Hend as [(Hst & _)|(_ & Habs & _)]; [|congruence].
    unfold cancel_job_at_rest. now rewrite Hst.
  - unfold cancel_job_at_rest at 2 3.
    destruct (cancellable (status (job r))) eqn:E; simpl.
    + reflexivity.
    + unfold cancel_job_at_rest. now rewrite E.
Qed.

(** X18.  A job with at least one file that is cancelled while idle and
    started afterwards ([start_job] accepts it, its status being
    "cancelled" and not "running") processes nothing: the first read of the
    event ends the run, every result stays "pending", both counters stay 0
    and the status is "cancelled" again; the run delivers one snapshot,
    with status "running", after the "cancelled" one of [cancel_job]. *)
Theorem start_after_cancel
    (path_name : string -> string) (request : BatchProcessingRequest)
    (world : nat -> FileWorld) (jid : string) :
  file_paths request <> [] ->
  let r1 := snd (cancel_job_at_rest (create_job path_name request jid)) in
  exists r2 : Run,
    start_job path_name request world (Some 0) r1 = Done r2 /\
    status (job r2) = cancelled /\
    results (job r2) = map (waiting path_name) (file_paths request) /\
    completed_files (job r2) = 0 /\ failed_files (job r2) = 0 /\
    map status (delivered r2) = [cancelled; running].
Proof.
  intros Hne r1. subst r1.
  unfold cancel_job_at_rest, start_job, create_job, _process_job. simpl.
  destruct (file_paths request) as [|p rest]; [congruence|].
  simpl. eexists. split; [reflexivity|]. simpl. repeat split.
Qed.

Lemma subscribed_In (cbs : list Callback) (cb : Callback) :
  subscribed cbs cb = true <-> In cb cbs.
Proof.
  unfold subscribed. rewrite existsb_exists. split.
  - intros (y & Hy & E). apply Nat.eqb_eq in E. now subst.
  - intros H. exists cb. split; [exact H|apply Nat.eqb_refl].
Qed.

Lemma remove_callback_snoc (cb : Callback) (cbs : list Callback) :
  ~ In cb cbs -> remove_callback cb (cbs ++ [cb]) = cbs.
Proof.
  induction cbs as [|c cbs IH]; simpl; intros H.
  - now rewrite Nat.eqb_refl.
  - destruct (Nat.eqb cb c) eqn:E.
    + apply Nat.eqb_eq in E. subst c. tauto.
    + rewrite IH; [reflexivity|tauto].
Qed.

Lemma remove_callback_count (cb other : Callback) (cbs : list Callback) :
  In cb cbs ->
  count_occ Nat.eq_dec (remove_callback cb cbs) other =
  if Nat.eqb other cb then count_occ Nat.eq_dec cbs other - 1
  else count_occ Nat.eq_dec cbs other.
Proof.
  induction cbs as [|c cbs IH]; simpl; [tauto|]. intros Hin.
  destruct (Nat.eqb cb c) eqn:E.
  - apply Nat.eqb_eq in E. subst c.
    destruct (Nat.eq_dec cb other) as [->|Hne].
    + rewrite Nat.eqb_refl. lia.
    + assert (Nat.eqb other cb = false) as -> by (apply Nat.eqb_neq; congruence).
      reflexivity.
  - apply Nat.eqb_neq in E. destruct Hin as [Hin|Hin]; [congruence|].
    simpl. rewrite (IH Hin).
    destruct (Nat.eq_dec c other) as [->|Hne]; [|reflexivity].
    assert (Nat.eqb other cb = false) as -> by (apply Nat.eqb_neq; congruence).
    reflexivity.
Qed.

(** X19.  For a registered job, [unsubscribe_progress] of a callback that
    is not subscribed returns false and changes nothing; of a subscribed
    one it returns true and takes away exactly one subscription of that
    callback and none of any other; and subscribing a callback that was not
    subscribed and unsubscribing it again brings back the callback list.
    For a job that is not registered both calls return false. *)
Theorem unsubscribe_contract (cbs : list Callback) (cb : Callback) :
  (~ In cb cbs -> unsubscribe_progress (Some cbs) cb = (false, Some cbs)) /\
  (In cb cbs ->
   exists cbs', unsubscribe_progress (Some cbs) cb = (true, Some cbs') /\
     forall other,
       count_occ Nat.eq_dec cbs' other =
       if Nat.eqb other cb then count_occ Nat.eq_dec cbs other - 1
       else count_occ Nat.eq_dec cbs other) /\
  (~ In cb cbs ->
   unsubscribe_progress (snd (subscribe_progress (Some cbs) cb)) cb = (true, Some cbs)) /\
  subscribe_progress None cb = (false, None) /\
  unsubscribe_progress None cb = (false, None).
Proof.
  split; [|split; [|split; [|split; reflexivity]]].
  - intros H. unfold unsubscribe_progress.
    destruct (subscribed cbs cb) eqn:E; [|reflexivity].
    apply subscribed_In in E. tauto.
  - intros H. unfold unsubscribe_progress.
    apply subscribed_In in H as E. rewrite E.
    eexists. split; [reflexivity|]. intros other. now apply remove_callback_count.
  - intros H. simpl.
    assert (E : subscribed (cbs ++ [cb]) cb = true).
    { apply subscribed_In, in_or_app. right. now left. }
    rewrite E. now rewrite remove_callback_snoc.
Qed.

(** *** Progress stays on the scale *)

Definition on_scale (q : Q) : Prop := (0 <= q)%Q /\ (q <= 100)%Q.

(** Nothing below zero so far. *)
Definition floor (r : Run) : Prop :=
  (0 <= progress (job r))%Q /\ Forall (fun e => (0 <= progress e)%Q) (delivered r).

Definition within (r : Run) : Prop :=
  on_scale (progress (job r)) /\ Forall (fun e => on_scale (progress e)) (delivered r).

Lemma quiet_floor (r rq : Run) : quiet r rq -> floor r -> floor rq.
Proof.
  intros ((_ & _ & _ & _ & _ & C6 & _) & _ & evs & Hd & Hevs) [F1 F2].
  split; [now rewrite C6|]. rewrite Hd. apply Forall_app. split; [exact F2|].
  eapply Forall_impl; [|exact Hevs].
  intros e (_ & _ & _ & _ & _ & E & _). cbv beta. now rewrite E.
Qed.

Lemma progress_after_nonneg (i : nat) (j : BatchJobStatus) : (0 <= progress_after i j)%Q.
Proof.
  unfold progress_after, Qdiv.
  destruct (total_files j) as [|n]; unfold Qle, Qmult, Qinv, inject_Z; simpl; lia.
Qed.

Lemma file_done_floor (i : nat) (r : Run) : floor r -> floor (snd (file_done i r)).
Proof.
  intros [F1 F2]. unfold file_done, floor. cbn [snd].
  split; [apply progress_after_nonneg|].
  apply Forall_app. split; [exact F2|].
  constructor; [apply progress_after_nonneg|constructor].
Qed.

Lemma record_floor
    (path_name : string -> string) (request : BatchProcessingRequest)
    (world : nat -> FileWorld) (i : nat) (path : string) (r : Run) :
  floor r -> floor (on_job (record path_name request world i path) r).
Proof.
  intros [F1 F2]. split; [|exact F2].
  cbn [job on_job]. unfold record.
  destruct (verdict request (world i)); exact F1.
Qed.

Lemma process_files_floor
    (path_name : string -> string) (request : BatchProcessingRequest)
    (world : nat -> FileWorld) (cancel_at : option nat) (rest : list string) :
  forall (i : nat) (r : Run),
    floor r -> floor (process_files path_name request world cancel_at i rest r).
Proof.
  induction rest as [|path rest IH]; intros i r F; [exact F|].
  cbn [process_files].
  destruct (process_file_cases path_name request world cancel_at i path r)
    as (rq & Hq & [(E & _)|[(E & _)|E]]); rewrite E.
  - exact (quiet_floor r rq Hq F).
  - exact (quiet_floor r rq Hq F).
  - unfold file_done at 1. apply IH.
    apply (file_done_floor i (on_job (record path_name request world i path) rq)).
    apply record_floor. exact (quiet_floor r rq Hq F).
Qed.

Lemma process_job_within
    (path_name : string -> string) (request : BatchProcessingRequest)
    (world : nat -> FileWorld) (cancel_at : option nat) (jid : string) :
  within (_process_job path_name request world cancel_at (create_job path_name request jid)).
Proof.
  destruct (create_job_at_file path_name request world jid) as [Hat1 Hrun1].
  set (r1 := _notify_progress _) in *.
  assert (F1 : floor r1).
  { split; [apply Qle_refl|]. constructor; [apply Qle_refl|constructor]. }
  pose proof (process_files_floor path_name request world cancel_at
                (file_paths request) 0 r1 F1) as [F2 F2'].
  pose proof (process_files_outcome path_name request world cancel_at
                (file_paths request) [] r1 Hat1 Hrun1) as Hloop.
  cbv zeta in Hloop. cbn [length app] in Hloop.
  unfold _process_job. fold r1.
  set (r2 := process_files path_name request world cancel_at 0 (file_paths request) r1) in *.
  assert (Hw : within r2).
  { assert (Hat : exists pre rest, at_file path_name request world pre rest r2).
    { destruct Hloop as [[Hat _]|(_ & pre & rest & _ & _ & Hat & _)]; eauto. }
    destruct Hat as (pre & rest & _ & _ & _ & _ & A5 & (_ & O2) & _).
    assert (Hle : (progress (job r2) <= 100)%Q).
    { eapply Qle_trans; [exact A5|]. apply share_le_100. rewrite length_app. lia. }
    split; [split; assumption|].
    apply Forall_forall. intros e He. split.
    - exact (proj1 (Forall_forall _ _) F2' e He).
    - eapply Qle_trans; [exact (proj1 (Forall_forall _ _) O2 e He)|exact Hle]. }
  assert (H100 : on_scale 100%Q) by (split; unfold Qle; simpl; lia).
  destruct (status (job r2)); try exact Hw.
  destruct Hw as [_ Hd]. split; [exact H100|].
  apply Forall_app. split; [exact Hd|]. constructor; [exact H100|constructor].
Qed.

(** X27.  Every progress value handed to the callbacks lies between 0 and
    100: during a run of [_process_job] on a new job, whenever the
    cancellation event becomes set, and including the last snapshot that
    [cancel_job] delivers; the progress the job is left with lies there
    too. *)
Theorem progress_on_scale
    (path_name : string -> string) (request : BatchProcessingRequest)
    (world : nat -> FileWorld) (jid : string) :
  (forall cancel_at : option nat,
      let r := _process_job path_name request world cancel_at
                 (create_job path_name request jid) in
      on_scale (progress (job r)) /\
      Forall (fun e => on_scale (progress e)) (delivered r)) /\
  (forall task : Task,
      let r := snd (cancel_job path_name request world jid task) in
      on_scale (progress (job r)) /\
      Forall (fun e => on_scale (progress e)) (delivered r)).
Proof.
  assert (H0 : on_scale 0%Q) by (split; unfold Qle; simpl; lia).
  split.
  - intros cancel_at. exact (process_job_within path_name request world cancel_at jid).
  - intros [| |k]; cbv zeta.
    + split; [exact H0|]. constructor; [exact H0|constructor].
    + split; [exact H0|]. constructor; [exact H0|constructor].
    + unfold cancel_job. cbn [snd].
      destruct (process_job_within path_name request world (Some k) jid) as [Hj Hd].
      set (rp := _process_job _ _ _ _ _) in *.
      split; [exact Hj|].
      change (delivered (cancel_finish rp))
        with (delivered rp ++ [with_status cancelled (job rp)]).
      apply Forall_app. split; [exact Hd|]. constructor; [exact Hj|constructor].
Qed.

(** *** The properties at a concrete job *)

Lemma start_after_cancel_witness :
  file_paths demo_request <> [] /\
  exists r2 : Run,
    start_job basename demo_request demo_world (Some 0)
      (snd (cancel_job_at_rest (create_job basename demo_request "7c9e6679a1b2")))
    = Done r2 /\
    status (job r2) = cancelled /\
    results (job r2) = map (waiting basename) (file_paths demo_request) /\
    completed_files (job r2) = 0 /\ failed_files (job r2) = 0 /\
    map status (delivered r2) = [cancelled; running].
Proof.
  assert (H : file_paths demo_request <> []) by (vm_compute; discriminate).
  split; [exact H|].
  exact (start_after_cancel basename demo_request demo_world "7c9e6679a1b2" H).
Defined.

Lemma unsubscribe_contract_witness :
  unsubscribe_progress (Some [1; 2]) 3 = (false, Some [1; 2]) /\
  unsubscribe_progress (snd (subscribe_progress (Some [1; 2]) 3)) 3 = (true, Some [1; 2]) /\
  exists cbs' : list Callback,
    unsubscribe_progress (Some [1; 2; 1]) 1 = (true, Some cbs') /\
    count_occ Nat.eq_dec cbs' 1 = 1 /\ count_occ Nat.eq_dec cbs' 2 = 1.
Proof.
  assert (Hn : ~ In 3 [1; 2]) by (cbn [In]; lia).
  assert (Hi : In 1 [1; 2; 1]) by (cbn [In]; lia).
  destruct (unsubscribe_contract [1; 2] 3) as (H1 & _ & H3 & _).
  split; [exact (H1 Hn)|]. split; [exact (H3 Hn)|].
  destruct (unsubscribe_contract [1; 2; 1] 1) as (_ & H2 & _).
  destruct (H2 Hi) as (cbs' & Hu & Hc).
  exists cbs'. split; [exact Hu|].
  split; [rewrite (Hc 1)|rewrite (Hc 2)]; vm_compute; reflexivity.
Defined.

End BatchServiceFacts.

(** * Further properties of the analysis job engine *)

Module TFRMore.
Import TFRJobs TFRRender TFRFacts.

Section WithResult.
Variable Result : Type.
Variable world : World Result.
Variable cancel_at : option nat.

Lemma batches_returned_progress (starts : list nat) (n b : nat) :
  forall (total : nat) (w w' : Worker Result),
    batches world cancel_at starts n b total w = LoopReturned w' ->
    progress (job w') = 1%Q.
Proof.
  induction starts as [|i starts IH]; intros total w w' H; simpl in H; [discriminate|].
  destruct (cancelled (job (tick cancel_at w))).
  - injection H as <-. reflexivity.
  - destruct (tfr_batch world i); [|discriminate]. eapply IH, H.
Qed.

Lemma channels_returned_progress (names : list string) (n : nat) :
  forall (ci : nat) (w w' : Worker Result),
    channels world cancel_at ci names n w = LoopReturned w' ->
    progress (job w') = 1%Q.
Proof.
  induction names as [|c names IH]; intros ci w w' H; simpl in H; [discriminate|].
  destruct (cancelled (job (tick cancel_at w))).
  - injection H as <-. reflexivity.
  - destruct (render_channel world ci); [|discriminate]. eapply IH, H.
Qed.

(** X20.  Whatever the collaborators do and whenever a cancellation comes,
    a run of [run_morlet_job] on a new job leaves the job "completed" with
    a result or in "error" with a message, and with progress 1.0 in either
    case. *)
Theorem run_ends_at_full_progress (jid : string) :
  let w := run_morlet_job world cancel_at (start jid) in
  settled Result (job w) /\ progress (job w) = 1%Q.
Proof.
  split; [apply run_ends_settled|].
  unfold run_morlet_job, read_cancelled.
  destruct (cancelled (job (tick cancel_at (start jid)))) eqn:Hseen.
  - revert Hseen. unfold tick, start. simpl.
    destruct cancel_at as [[|k]|]; simpl; try discriminate. reflexivity.
  - destruct (prepare world) as [n|msg]; [|reflexivity].
    destruct ((if 10 <=? n then 5 else n) =? 0); [reflexivity|].
    destruct (batches _ _ _ _ _ _ _) as [w4|w4|msg w4] eqn:Hb.
    + destruct (average world); [|reflexivity].
      destruct (render_image world); [|reflexivity].
      destruct (render_roi world); [|reflexivity].
      destruct (channels _ _ _ _ _ _) as [w7|w7|msg w7] eqn:Hc.
      * reflexivity.
      * apply (channels_returned_progress _ _ _ _ _ Hc).
      * reflexivity.
    + apply (batches_returned_progress _ _ _ _ _ _ Hb).
    + reflexivity.
Qed.

(** X22.  When the preparation succeeds with at least one epoch, a
    [cancel_job] that arrives before the worker's read of [job.cancelled]
    at the head of the first batch (its access number 3) is accepted and
    ends the job in "error" with the cancellation text and without a
    result. *)
Theorem early_cancel_ends_error (jid : string) (n k : nat) :
  prepare world = Done n ->
  0 < n ->
  k <= 3 ->
  cancel_at = Some k ->
  let w := run_morlet_job world cancel_at (start jid) in
  cancel_answer w = Some true /\
  status (job w) = Error /\
  error (job w) = Some CANCELLED_MSG /\
  result (job w) = None.
Proof.
  intros Hprep Hn Hk ->. cbv zeta.
  unfold run_morlet_job. rewrite Hprep.
  destruct n as [|n]; [lia|].
  assert (Hb : ((if 10 <=? S n then 5 else S n) =? 0) = false).
  { destruct (10 <=? S n); reflexivity. }
  rewrite Hb.
  assert (Hrange : exists rest, range (S n) (if 10 <=? S n then 5 else S n) = 0 :: rest).
  { unfold range. simpl. eexists. reflexivity. }
  destruct Hrange as [rest ->].
  destruct k as [|[|[|[|k]]]]; [| | | |lia]; vm_compute; repeat split.
Qed.

End WithResult.

(** *** The batches of the epochs *)

(** The epochs [start_idx .. end_idx - 1] of each batch, as the loop of
    [run_morlet_job] takes them. *)
Definition spans (n_epochs batch_size : nat) : list (nat * nat) :=
  map (fun start_idx => (start_idx, Nat.min (start_idx + batch_size) n_epochs))
    (range n_epochs batch_size).

(** The spans follow one another from [from] to [to], none empty and none
    longer than [width]. *)
Fixpoint tiles (width from : nat) (l : list (nat * nat)) (to : nat) : Prop :=
  match l with
  | [] => from = to
  | (s, e) :: rest => s = from /\ s < e /\ e <= s + width /\ tiles width e rest to
  end.

Lemma range_from_tiles (stop step : nat) :
  1 <= step ->
  forall fuel start : nat,
    stop - start <= fuel ->
    tiles step (Nat.min start stop)
      (map (fun s => (s, Nat.min (s + step) stop)) (range_from fuel start stop step))
      stop.
Proof.
  intros Hstep. induction fuel as [|fuel IH]; intros start Hfuel; simpl.
  - lia.
  - destruct (start <? stop) eqn:E.
    + apply Nat.ltb_lt in E. simpl.
      repeat split; try lia. apply IH. lia.
    + apply Nat.ltb_ge in E. simpl. lia.
Qed.

(** X21.  For at least one epoch the batches of [run_morlet_job] (five
    epochs each from ten epochs on, one single batch below) tile the
    epochs: they start at epoch 0, each begins where the one before ended,
    none is empty or longer than the batch size, and the last ends at
    [n_epochs]; so every epoch enters the running sum exactly once. *)
Theorem batches_tile_epochs (n_epochs : nat) :
  0 < n_epochs ->
  let batch_size := if 10 <=? n_epochs then 5 else n_epochs in
  tiles batch_size 0 (spans n_epochs batch_size) n_epochs.
Proof.
  intros Hn batch_size.
  assert (Hb : 1 <= batch_size) by (subst batch_size; destruct (10 <=? n_epochs); lia).
  pose proof (range_from_tiles n_epochs batch_size Hb n_epochs 0) as H.
  rewrite Nat.min_0_l in H. apply H. lia.
Qed.

(** X23.  For a diverging colormap the colour range is symmetric around
    zero and contains the range supplied or computed from the data; for any
    other colormap it is that range itself. *)
Theorem color_bounds_symmetric (colormap : string) (vmin vmax : option Q) (p2 p98 : Q) :
  let lo := match vmin with None => p2 | Some v => v end in
  let hi := match vmax with None => p98 | Some v => v end in
  let b := color_bounds colormap vmin vmax p2 p98 in
  (diverging colormap = true ->
   fst b = Qopp (snd b) /\ (fst b <= lo)%Q /\ (hi <= snd b)%Q /\
   (fst b <= hi)%Q /\ (lo <= snd b)%Q /\ (0 <= snd b)%Q) /\
  (diverging colormap = false -> b = (lo, hi)).
Proof.
  intros lo hi b. subst b. unfold color_bounds. fold lo. fold hi.
  destruct (diverging colormap); split; try discriminate; intros _; [|reflexivity].
  simpl.
  pose proof (Q.le_max_l (Qabs lo) (Qabs hi)) as Hl.
  pose proof (Q.le_max_r (Qabs lo) (Qabs hi)) as Hr.
  pose proof (Qabs_nonneg lo) as Hn.
  assert (Hlo : forall x, (Qopp (Qabs x) <= x)%Q /\ (x <= Qabs x)%Q).
  { intros x. split; [|apply Qle_Qabs].
    rewrite <- (Qopp_involutive x) at 2. apply Qopp_le_compat.
    rewrite <- Qabs_opp. apply Qle_Qabs. }
  assert (Hopp : forall x, (Qabs x <= Qmax (Qabs lo) (Qabs hi))%Q ->
                 (Qopp (Qmax (Qabs lo) (Qabs hi)) <= x)%Q /\
                 (x <= Qmax (Qabs lo) (Qabs hi))%Q).
  { intros x Hx. split.
    - eapply Qle_trans; [apply Qopp_le_compat; exact Hx|apply Hlo].
    - eapply Qle_trans; [apply Hlo|exact Hx]. }
  split; [reflexivity|].
  split; [apply (Hopp lo Hl)|]. split; [apply (Hopp hi Hr)|].
  split; [apply (Hopp hi Hr)|]. split; [apply (Hopp lo Hl)|].
  eapply Qle_trans; [exact Hn|exact Hl].
Qed.

(** *** The properties at concrete inputs *)

Lemma early_cancel_ends_error_witness :
  prepare demo_world = Done 4 /\
  cancel_answer (run_morlet_job demo_world (Some 2) (start "5d41402a")) = Some true /\
  status (job (run_morlet_job demo_world (Some 2) (start "5d41402a"))) = Error /\
  error (job (run_morlet_job demo_world (Some 2) (start "5d41402a")))
  = Some CANCELLED_MSG /\
  result (job (run_morlet_job demo_world (Some 2) (start "5d41402a"))) = None.
Proof.
  assert (Hp : prepare demo_world = Done 4) by (vm_compute; reflexivity).
  assert (Hn : 0 < 4) by lia.
  assert (Hk : 2 <= 3) by lia.
  split; [exact Hp|].
  exact (early_cancel_ends_error nat demo_world (Some 2) "5d41402a" 4 2 Hp Hn Hk eq_refl).
Defined.

Lemma batches_tile_epochs_witness :
  0 < 12 /\ spans 12 5 = [(0, 5); (5, 10); (10, 12)] /\
  tiles 5 0 [(0, 5); (5, 10); (10, 12)] 12.
Proof.
  assert (Hn : 0 < 12) by lia.
  assert (Hs : spans 12 5 = [(0, 5); (5, 10); (10, 12)]) by (vm_compute; reflexivity).
  split; [exact Hn|]. split; [exact Hs|].
  rewrite <- Hs. exact (batches_tile_epochs 12 Hn).
Defined.

Lemma color_bounds_symmetric_witness :
  diverging "RdBu_r" = true /\
  color_bounds "RdBu_r" None (Some (3 # 1)%Q) (- (5 # 1))%Q (4 # 1)%Q
  = ((- (5 # 1))%Q, (5 # 1)%Q) /\
  diverging "viridis" = false /\
  color_bounds "viridis" None (Some (3 # 1)%Q) (- (5 # 1))%Q (4 # 1)%Q
  = ((- (5 # 1))%Q, (3 # 1)%Q).
Proof.
  assert (Hd : diverging "RdBu_r" = true) by (vm_compute; reflexivity).
  assert (Hv : diverging "viridis" = false) by (vm_compute; reflexivity).
  split; [exact Hd|]. split; [vm_compute; reflexivity|]. split; [exact Hv|].
  exact (proj2 (color_bounds_symmetric "viridis" None (Some (3 # 1)%Q)
                  (- (5 # 1))%Q (4 # 1)%Q) Hv).
Defined.

End TFRMore.

(** * Properties of a pipeline step and of event renaming *)

Module BatchStepsFacts.
Import SessionManager EEGService BatchSteps.

(** X25.  A step whose type [_execute_step] has no branch for (the request
    schema admits "bad_channel") is passed over: no service call is made,
    nothing raises, and the session changes only by the history record of
    the step. *)
Theorem unhandled_step_only_recorded
    (Raw Epochs Params : Type) (svc : Service Raw Epochs Params)
    (step_type : string) (ps : Params) (now : string)
    (s : EEGSession Raw Epochs Params) :
  existsb (String.eqb step_type) HANDLED_TYPES = false ->
  _execute_step svc step_type ps now s = Returned (add_history step_type ps now s).
Proof.
  unfold HANDLED_TYPES. simpl existsb. intros H.
  repeat (apply Bool.orb_false_iff in H; destruct H as [? H]).
  unfold _execute_step.
  repeat match goal with E : String.eqb _ _ = false |- _ => rewrite E; clear E end.
  reflexivity.
Qed.

(** *** The property at a concrete step *)

Definition demo_service : Service nat nat nat :=
  let run (name : string) (ps : nat) :=
    apply_operation
      (mkOperation name ps "2024-01-01T10:01:00" (fun r e => (r, e))
         ps "2024-01-01T10:01:05") in
  mkService
    (fun ps s => Returned (add_history "set_montage" ps "2024-01-01T10:01:05" s))
    (run "filter"%string) (run "resample"%string) (run "rereference"%string)
    (run "ica"%string) (run "crop"%string)
    (fun _ => false) (fun _ s => Returned s) (run "epochs"%string).

Lemma unhandled_step_only_recorded_witness :
  existsb (String.eqb "bad_channel") HANDLED_TYPES = false /\
  _execute_step demo_service "bad_channel" 7 "2024-01-01T10:06:00" SessionFacts.demo_loaded
  = Returned (add_history "bad_channel" 7 "2024-01-01T10:06:00" SessionFacts.demo_loaded).
Proof.
  assert (H : existsb (String.eqb "bad_channel") HANDLED_TYPES = false)
    by (vm_compute; reflexivity).
  split; [exact H|].
  exact (unhandled_step_only_recorded nat nat nat demo_service "bad_channel" 7
           "2024-01-01T10:06:00" SessionFacts.demo_loaded H).
Defined.

End BatchStepsFacts.

Module EventRenamingFacts.
Import EventRenaming.

Lemma put_keys (key : string) (val : Z) (d : EventIds) :
  map fst (put key val d) =
  if existsb (String.eqb key) (map fst d) then map fst d else map fst d ++ [key].
Proof.
  induction d as [|[k w] d IH]; simpl; [reflexivity|].
  destruct (String.eqb key k) eqn:E; simpl; [reflexivity|].
  rewrite IH. now destruct (existsb (String.eqb key) (map fst d)).
Qed.

Lemma put_fresh (key : string) (val : Z) (d : EventIds) :
  ~ In key (map fst d) -> put key val d = d ++ [(key, val)].
Proof.
  induction d as [|[k w] d IH]; simpl; intros H; [reflexivity|].
  destruct (String.eqb key k) eqn:E.
  - apply String.eqb_eq in E. subst. tauto.
  - rewrite IH; [reflexivity|tauto].
Qed.

Lemma existsb_eqb_In (key : string) (l : list string) :
  existsb (String.eqb key) l = true <-> In key l.
Proof.
  rewrite existsb_exists. split.
  - intros (y & Hy & E). apply String.eqb_eq in E. now subst.
  - intros H. exists key. split; [exact H|apply String.eqb_refl].
Qed.

Lemma put_keys_NoDup (key : string) (val : Z) (d : EventIds) :
  NoDup (map fst d) ->
  NoDup (map fst (put key val d)) /\
  (forall k, In k (map fst (put key val d)) <-> k = key \/ In k (map fst d)).
Proof.
  intros H. rewrite put_keys.
  destruct (existsb (String.eqb key) (map fst d)) eqn:E.
  - apply existsb_eqb_In in E. split; [exact H|].
    intros k. split; [tauto|]. intros [->|Hk]; assumption.
  - assert (Hn : ~ In key (map fst d)).
    { intros Hin. apply existsb_eqb_In in Hin. congruence. }
    split.
    + apply NoDup_app; [exact H|constructor; [tauto|constructor]|].
      intros x Hx [<-|[]]. exact (Hn Hx).
    + intros k. rewrite in_app_iff. simpl. split; [intros [Hk|[<-|[]]]|intros [->|Hk]]; tauto.
Qed.

Lemma fold_put_keys (m : list (Z * string)) (items : EventIds) :
  forall acc : EventIds,
    NoDup (map fst acc) ->
    let out := fold_left (fun d item => put (new_key m item) (snd item) d) items acc in
    NoDup (map fst out) /\
    (forall k, In k (map fst out) <->
               In k (map fst acc) \/ In k (map (new_key m) items)).
Proof.
  induction items as [|item items IH]; intros acc Hacc; simpl.
  - split; [exact Hacc|]. intros k. tauto.
  - destruct (put_keys_NoDup (new_key m item) (snd item) acc Hacc) as [Hd Hk].
    destruct (IH _ Hd) as [Hd' Hk']. split; [exact Hd'|].
    intros k. rewrite Hk', Hk. intuition (subst; auto).
Qed.

Lemma fold_put_fresh (m : list (Z * string)) (items : EventIds) :
  forall acc : EventIds,
    NoDup (map fst acc ++ map (new_key m) items) ->
    fold_left (fun d item => put (new_key m item) (snd item) d) items acc =
    acc ++ map (fun item => (new_key m item, snd item)) items.
Proof.
  induction items as [|item items IH]; intros acc H; simpl.
  - now rewrite app_nil_r.
  - simpl in H. rewrite put_fresh.
    + rewrite IH; [now rewrite <- app_assoc|].
      rewrite map_app. simpl. rewrite <- app_assoc. exact H.
    + apply NoDup_remove_2 in H. intros Hin. apply H. apply in_or_app. now left.
Qed.

(** X26.  The labels of the renamed [epochs.event_id] are distinct and are
    exactly the new labels of the old entries.  When the new labels are
    pairwise distinct, every entry is kept in place under its new label
    with its event value; when two entries get the same label, the
    dictionary comes out shorter: an event value is lost. *)
Theorem rename_event_ids_keeps_or_loses (m : list (Z * string)) (current : EventIds) :
  let renamed := rename_event_ids m current in
  NoDup (map fst renamed) /\
  (forall k, In k (map fst renamed) <-> In k (map (new_key m) current)) /\
  (NoDup (map (new_key m) current) ->
   renamed = map (fun item => (new_key m item, snd item)) current) /\
  (~ NoDup (map (new_key m) current) -> length renamed < length current).
Proof.
  intros renamed. subst renamed. unfold rename_event_ids.
  destruct (fold_put_keys m current [] (NoDup_nil _)) as [Hd Hk].
  cbv zeta in Hd, Hk.
  split; [exact Hd|]. split; [intros k; rewrite Hk; simpl; tauto|]. split.
  - intros H. now rewrite fold_put_fresh.
  - intros Hdup.
    set (out := fold_left (fun d item => put (new_key m item) (snd item) d) current []) in *.
    assert (Hincl : incl (map fst out) (map (new_key m) current)).
    { intros k Hin. apply Hk in Hin. simpl in Hin. tauto. }
    assert (Hincl' : incl (map (new_key m) current) (map fst out)).
    { intros k Hin. apply Hk. now right. }
    pose proof (NoDup_incl_length Hd Hincl) as Hle.
    rewrite !length_map in Hle.
    destruct (Nat.eq_dec (length out) (length current)) as [E|E]; [|lia].
    exfalso. apply Hdup.
    apply (NoDup_incl_NoDup Hd); [rewrite !length_map; lia|exact Hincl].
Qed.

(** *** The property at concrete event dictionaries *)

Definition demo_event_id : EventIds :=
  [("1", 1); ("2", 2); ("3", 3)]%string%Z.

Lemma rename_event_ids_keeps_or_loses_witness :
  NoDup (map (new_key [(1, "target")]%string%Z) demo_event_id) /\
  rename_event_ids [(1, "target")]%string%Z demo_event_id
  = [("target", 1); ("2", 2); ("3", 3)]%string%Z /\
  ~ NoDup (map (new_key [(1, "target"); (2, "target")]%string%Z) demo_event_id) /\
  length (rename_event_ids [(1, "target"); (2, "target")]%string%Z demo_event_id) < 3.
Proof.
  assert (Hd : NoDup (map (new_key [(1, "target")]%string%Z) demo_event_id)).
  { vm_compute. repeat constructor; cbn [In]; intuition discriminate. }
  assert (Hn : ~ NoDup (map (new_key [(1, "target"); (2, "target")]%string%Z)
                          demo_event_id)).
  { intros H. vm_compute in H. inversion H as [|x l Hx Hl]. apply Hx. now left. }
  destruct (rename_event_ids_keeps_or_loses [(1, "target")]%string%Z demo_event_id)
    as (_ & _ & Hkeep & _).
  destruct (rename_event_ids_keeps_or_loses [(1, "target"); (2, "target")]%string%Z
              demo_event_id) as (_ & _ & _ & Hlose).
  split; [exact Hd|]. split; [rewrite (Hkeep Hd); vm_compute; reflexivity|].
  split; [exact Hn|exact (Hlose Hn)].
Defined.

End EventRenamingFacts.
